(** * Rubel Engine: the entity store and the command interpreter

    A shallow embedding of [context/AppContext.tsx] (the store held by
    [AppProvider]) and of [processCommand] / [runCommand] from
    [app/(tabs)/command.tsx]; further down, of the loader of [AppProvider]
    and of the hidden panel, the admin form and the e-mail field of
    [app/(tabs)/settings.tsx].

    - A JavaScript string is a [string]; its characters stand for the code
      units below 256.  White space and case mapping are the JavaScript ones
      on that range.  Message literals are copied from the source.
    - The store is the tuple of React state cells of [AppProvider].  A state
      setter called with an updater, [setX(prev => e)], replaces cell [X] by
      [e]; the persistence effects ([AsyncStorage.setItem]) do not feed back
      into the cells and are left out.
    - A JavaScript call either returns or throws: store operations and the
      interpreter live in [App], a state monad over the store on top of the
      error monad of thrown values.
    - [Math.random], [Date] and [Platform.OS] are read from an [Env] that the
      caller supplies for each call. *)

From Stdlib Require Import String Ascii List Bool Arith NArith Lia Floats.
From Stdlib Require Import DecimalString.
From ExtLib Require Import Structures.Monad Structures.MonadState Structures.MonadExc.
From ExtLib Require Import Data.Monads.StateMonad Data.Monads.EitherMonad.
Import ListNotations.
Import MonadNotation.
Local Open Scope list_scope.
Local Open Scope string_scope.
Local Open Scope nat_scope.
Local Open Scope monad_scope.

#[local] Existing Instance Monad_stateT.

(** ** JavaScript strings *)

Module JS.

(** [WhiteSpace] and [LineTerminator] code units below 256: TAB, LF, VT, FF,
    CR, SP and NBSP.  This is the set of [\s] and of [String.prototype.trim]. *)
Definition isWhiteSpace (c : ascii) : bool :=
  let n := nat_of_ascii c in
  ((9 <=? n) && (n <=? 13)) || (n =? 32) || (n =? 160).

Fixpoint trimStart (s : string) : string :=
  match s with
  | EmptyString => EmptyString
  | String c r => if isWhiteSpace c then trimStart r else s
  end.

Fixpoint trimEnd (s : string) : string :=
  match s with
  | EmptyString => EmptyString
  | String c r =>
      match trimEnd r with
      | EmptyString => if isWhiteSpace c then EmptyString else String c EmptyString
      | r' => String c r'
      end
  end.

Definition trim (s : string) : string := trimEnd (trimStart s).

(** [toLowerCase] on one code unit: A-Z and the Latin-1 capitals (U+00C0 to
    U+00DE but the multiplication sign U+00D7) move up by 32. *)
Definition toLowerChar (c : ascii) : ascii :=
  let n := nat_of_ascii c in
  if ((65 <=? n) && (n <=? 90))
     || ((192 <=? n) && (n <=? 222) && negb (n =? 215))
  then ascii_of_nat (n + 32) else c.

Fixpoint toLowerCase (s : string) : string :=
  match s with
  | EmptyString => EmptyString
  | String c r => String (toLowerChar c) (toLowerCase r)
  end.

(** [s.split(/\s+/)]: the pieces between maximal runs of white space; a run
    at either end leaves an empty piece there.  [cur] is the piece being
    read, [inRun] tells that the previous character was white space. *)
Fixpoint splitWsFrom (cur : string) (inRun : bool) (s : string) : list string :=
  match s with
  | EmptyString => [cur]
  | String c r =>
      if isWhiteSpace c
      then if inRun then splitWsFrom cur true r
           else cur :: splitWsFrom EmptyString true r
      else splitWsFrom (cur ++ String c EmptyString) false r
  end.

Definition splitWs (s : string) : list string := splitWsFrom EmptyString false s.

(** [s.split(sep)] for a separator of one character. *)
Fixpoint splitOnFrom (sep : ascii) (cur : string) (s : string) : list string :=
  match s with
  | EmptyString => [cur]
  | String c r =>
      if Ascii.eqb c sep
      then cur :: splitOnFrom sep EmptyString r
      else splitOnFrom sep (cur ++ String c EmptyString) r
  end.

Definition splitOn (sep : ascii) (s : string) : list string :=
  splitOnFrom sep EmptyString s.

(** [xs.join(sep)] *)
Fixpoint join (sep : string) (xs : list string) : string :=
  match xs with
  | [] => EmptyString
  | [x] => x
  | x :: rest => x ++ sep ++ join sep rest
  end.

(** [s.slice(n)] for [n >= 0] *)
Fixpoint sliceFrom (n : nat) (s : string) : string :=
  match n, s with
  | O, _ => s
  | S n', EmptyString => EmptyString
  | S n', String _ r => sliceFrom n' r
  end.

(** Digits of [Number.prototype.toString(36)] *)
Definition digit36 (d : N) : ascii :=
  if (d <? 10)%N then ascii_of_N (48 + d) else ascii_of_N (87 + d).

Fixpoint toString36From (fuel : nat) (n : N) (acc : string) : string :=
  match fuel with
  | O => acc
  | S fuel' =>
      if (n =? 0)%N then acc
      else toString36From fuel' (n / 36)%N (String (digit36 (n mod 36)%N) acc)
  end.

(** [n.toString(36)] for a non-negative integer [n] *)
Definition toString36 (n : N) : string :=
  if (n =? 0)%N then "0" else toString36From (N.size_nat n) n EmptyString.

(** [String(n)] for an array length *)
Definition ofNat (n : nat) : string := NilEmpty.string_of_uint (Nat.to_uint n).

(** The truthiness of a string: [!s] holds of the empty string only. *)
Definition truthy (s : string) : bool :=
  match s with EmptyString => false | _ => true end.

Definition nl : string := String (ascii_of_nat 10) EmptyString.

End JS.

(** ** The ambient readings of one call *)

Record Env := {
  mathRandom36 : string;   (* Math.random().toString(36), as in "0.4fzyo82mvyr" *)
  dateNow : N;             (* Date.now() *)
  dateISO : string;        (* new Date().toISOString() *)
  dateLocale : string;     (* new Date().toLocaleString() *)
  platformOS : string      (* Platform.OS *)
}.

(** ** Entities *)

Module Feature.
Record t := mk {
  id : string;
  name : string;
  description : string;
  enabled : bool;
  category : string;
  addedAt : string
}.
(** [{ ...f, enabled: b }] *)
Definition withEnabled (f : t) (b : bool) : t :=
  mk (id f) (name f) (description f) b (category f) (addedAt f).
End Feature.

Module GPSLog.
Record t := mk {
  id : string;
  lat : float;
  lng : float;
  accuracy : float;
  timestamp : string
}.
End GPSLog.

Module PhotoLog.
Record t := mk { id : string; uri : string; timestamp : string }.
End PhotoLog.

Module CommandLog.
Inductive type := success | error | info.
Record t := mk {
  id : string;
  command : string;
  result : string;
  timestamp : string;
  type_ : type
}.
End CommandLog.

Module EmailQueue.
Record t := mk {
  id : string;
  subject : string;
  body : string;
  createdAt : string;
  sent : bool
}.
End EmailQueue.

(** ** The store: the state cells of [AppProvider] *)

Record Store := mkStore {
  features : list Feature.t;
  gpsLogs : list GPSLog.t;
  photoLogs : list PhotoLog.t;
  commandLogs : list CommandLog.t;
  emailQueue : list EmailQueue.t;
  emailAddress : string;
  isOnline : bool
}.

(** A thrown JavaScript value. *)
Inductive exn := Error (message : string).

Definition App : Type -> Type := stateT Store (sum exn).

Definition run {A} (c : App A) (st : Store) : exn + (A * Store) := runStateT c st.

Definition setFeatures (upd : list Feature.t -> list Feature.t) : App unit :=
  st <- get ;;
  put (mkStore (upd (features st)) (gpsLogs st) (photoLogs st) (commandLogs st)
               (emailQueue st) (emailAddress st) (isOnline st)).

Definition setGpsLogs (upd : list GPSLog.t -> list GPSLog.t) : App unit :=
  st <- get ;;
  put (mkStore (features st) (upd (gpsLogs st)) (photoLogs st) (commandLogs st)
               (emailQueue st) (emailAddress st) (isOnline st)).

Definition setPhotoLogs (upd : list PhotoLog.t -> list PhotoLog.t) : App unit :=
  st <- get ;;
  put (mkStore (features st) (gpsLogs st) (upd (photoLogs st)) (commandLogs st)
               (emailQueue st) (emailAddress st) (isOnline st)).

Definition setCommandLogs (upd : list CommandLog.t -> list CommandLog.t) : App unit :=
  st <- get ;;
  put (mkStore (features st) (gpsLogs st) (photoLogs st) (upd (commandLogs st))
               (emailQueue st) (emailAddress st) (isOnline st)).

Definition setEmailQueue (upd : list EmailQueue.t -> list EmailQueue.t) : App unit :=
  st <- get ;;
  put (mkStore (features st) (gpsLogs st) (photoLogs st) (commandLogs st)
               (upd (emailQueue st)) (emailAddress st) (isOnline st)).

Definition setEmailAddressState (email : string) : App unit :=
  st <- get ;;
  put (mkStore (features st) (gpsLogs st) (photoLogs st) (commandLogs st)
               (emailQueue st) email (isOnline st)).

(** ** Store operations *)

(** [Math.random().toString(36).slice(2) + Date.now().toString(36)] *)
Definition uid (e : Env) : string :=
  JS.sliceFrom 2 (mathRandom36 e) ++ JS.toString36 (dateNow e).

Definition setEmailAddress (email : string) : App unit :=
  setEmailAddressState email.

Definition toggleFeature (id : string) : App unit :=
  setFeatures (fun prev =>
    map (fun f => if (Feature.id f =? id)%string
                  then Feature.withEnabled f (negb (Feature.enabled f))
                  else f) prev).

Definition addFeature (e : Env) (name description category : string) : App unit :=
  let newFeature :=
    Feature.mk (uid e) name description false category (dateISO e) in
  setFeatures (fun prev => (prev ++ [newFeature])%list).

Definition removeFeature (id : string) : App unit :=
  setFeatures (fun prev => filter (fun f => negb (Feature.id f =? id)%string) prev).

(** The argument of [addGPSLog]: a [GPSLog] without [id] and [timestamp]. *)
Record GPSReading := { r_lat : float; r_lng : float; r_accuracy : float }.

Definition addGPSLog (e : Env) (log : GPSReading) : App unit :=
  let entry := GPSLog.mk (uid e) (r_lat log) (r_lng log) (r_accuracy log) (dateISO e) in
  setGpsLogs (fun prev => firstn 200 (entry :: prev)).

Definition addPhotoLog (e : Env) (uri : string) : App unit :=
  let entry := PhotoLog.mk (uid e) uri (dateISO e) in
  setPhotoLogs (fun prev => firstn 100 (entry :: prev)).

Definition addCommandLog (e : Env) (command result : string) (ty : CommandLog.type)
  : App unit :=
  let entry := CommandLog.mk (uid e) command result (dateISO e) ty in
  setCommandLogs (fun prev => firstn 500 (entry :: prev)).

Definition addEmailQueue (e : Env) (subject body : string) : App unit :=
  let entry := EmailQueue.mk (uid e) subject body (dateISO e) false in
  setEmailQueue (fun prev => (prev ++ [entry])%list).

Definition clearCommandLogs : App unit := setCommandLogs (fun _ => []).
Definition clearGPSLogs : App unit := setGpsLogs (fun _ => []).

(** The [actions] argument of [processCommand] *)
Module Actions.
Record t := mk {
  toggleFeature : string -> App unit;
  addFeature : string -> string -> string -> App unit;
  removeFeature : string -> App unit;
  clearCommandLogs : App unit;
  clearGPSLogs : App unit;
  addEmailQueue : string -> string -> App unit;
  emailAddress : string
}.
End Actions.

(** What [CommandScreen] takes from [useApp()] and hands to [processCommand]:
    the operations of the store, and the e-mail address read from it. *)
Definition storeActions (e : Env) (st : Store) : Actions.t :=
  Actions.mk toggleFeature (addFeature e) removeFeature clearCommandLogs clearGPSLogs
             (addEmailQueue e) (emailAddress st).

(** ** The command interpreter *)

(** [CommandResult]; the optional [data] is never set by [processCommand]. *)
Record CommandResult := mkResult { success : bool; message : string }.

Definition ok (msg : string) : App CommandResult := ret (mkResult true msg).
Definition failed (msg : string) : App CommandResult := ret (mkResult false msg).

(** [cmd === label], where [cmd] may be [undefined] *)
Definition isCase (cmd : option string) (label : string) : bool :=
  match cmd with
  | Some c => (c =? label)%string
  | None => false
  end.

(** [!x], where [x] may be [undefined] *)
Definition falsy (x : option string) : bool :=
  match x with
  | Some s => negb (JS.truthy s)
  | None => true
  end.

(** [`${x}`] *)
Definition text (x : option string) : string :=
  match x with
  | Some s => s
  | None => "undefined"
  end.

Definition helpText : string :=
  JS.join JS.nl
    [ "Available commands:";
      "  help — show this list";
      "  list — list all features";
      "  enable <id> — enable feature";
      "  disable <id> — disable feature";
      "  add <name> | <desc> | <category> — add feature";
      "  remove <id> — remove feature";
      "  status — system status";
      "  clear-logs — clear command logs";
      "  clear-gps — clear GPS logs";
      "  sync-email — queue data for email sync";
      "  version — app version" ].

Definition featureLine (f : Feature.t) : string :=
  "  [" ++ (if Feature.enabled f then "ON " else "OFF") ++ "] "
  ++ Feature.id f ++ " — " ++ Feature.name f ++ " (" ++ Feature.category f ++ ")".

(** The predicate of [features.find] in [enable] and [disable] *)
Definition matchesTarget (id : string) (args : list string) (x : Feature.t) : bool :=
  (Feature.id x =? id)%string
  || (JS.toLowerCase (Feature.name x) =? JS.toLowerCase (JS.join " " args))%string.

Definition enabledNames (features : list Feature.t) : string :=
  JS.join ", " (map Feature.name (filter Feature.enabled features)).

(** [processCommand(input, features, actions)]: [features] is the array the
    caller read from the store, [actions] the closures and the e-mail address
    it passes.  [e] serves [toLocaleString] and [Platform.OS]. *)
Definition processCommand (e : Env) (input : string) (features : list Feature.t)
    (actions : Actions.t) : App CommandResult :=
  let parts := JS.splitWs (JS.trim input) in
  let cmd := option_map JS.toLowerCase (nth_error parts 0) in
  let args := skipn 1 parts in
  if isCase cmd "help" then ok helpText
  else if isCase cmd "list" then
    if length features =? 0 then ok "No features registered."
    else
      let featureList := JS.join JS.nl (map featureLine features) in
      ok ("Features (" ++ JS.ofNat (length features) ++ "):" ++ JS.nl ++ featureList)
  else if isCase cmd "enable" then
    let id := nth_error args 0 in
    if falsy id then failed "Usage: enable <feature-id>"
    else
      match find (matchesTarget (text id) args) features with
      | None => failed ("Feature not found: " ++ text id)
      | Some f =>
          if Feature.enabled f then ok (Feature.name f ++ " is already enabled.")
          else
            Actions.toggleFeature actions (Feature.id f) ;;
            ok ("Enabled: " ++ Feature.name f)
      end
  else if isCase cmd "disable" then
    let id := nth_error args 0 in
    if falsy id then failed "Usage: disable <feature-id>"
    else
      match find (matchesTarget (text id) args) features with
      | None => failed ("Feature not found: " ++ text id)
      | Some f =>
          if negb (Feature.enabled f) then ok (Feature.name f ++ " is already disabled.")
          else
            Actions.toggleFeature actions (Feature.id f) ;;
            ok ("Disabled: " ++ Feature.name f)
      end
  else if isCase cmd "add" then
    let full := JS.join " " args in
    let splits := map JS.trim (JS.splitOn "|" full) in
    if length splits <? 2 then failed "Usage: add <name> | <description> | <category>"
    else
      let name := nth_error splits 0 in
      let desc := nth_error splits 1 in
      let cat := match nth_error splits 2 with Some c => c | None => "Custom" end in
      if falsy name || falsy desc then failed "Name and description are required."
      else
        Actions.addFeature actions (text name) (text desc) cat ;;
        ok ("Feature added: " ++ text name ++ " [" ++ cat ++ "]")
  else if isCase cmd "remove" then
    let id := nth_error args 0 in
    if falsy id then failed "Usage: remove <feature-id>"
    else
      match find (fun x => (Feature.id x =? text id)%string) features with
      | None => failed ("Feature not found: " ++ text id)
      | Some f =>
          Actions.removeFeature actions (Feature.id f) ;;
          ok ("Removed: " ++ Feature.name f)
      end
  else if isCase cmd "status" then
    let enabled := length (filter Feature.enabled features) in
    ok ("System Status:" ++ JS.nl
        ++ "  Features: " ++ JS.ofNat enabled ++ "/" ++ JS.ofNat (length features)
        ++ " active" ++ JS.nl
        ++ "  Email: " ++ (if JS.truthy (Actions.emailAddress actions) then Actions.emailAddress actions else "not configured")
        ++ JS.nl
        ++ "  Platform: " ++ platformOS e ++ JS.nl
        ++ "  Version: 1.0.0")
  else if isCase cmd "clear-logs" then
    Actions.clearCommandLogs actions ;;
    ok "Command logs cleared."
  else if isCase cmd "clear-gps" then
    Actions.clearGPSLogs actions ;;
    ok "GPS logs cleared."
  else if isCase cmd "sync-email" then
    if negb (JS.truthy (Actions.emailAddress actions))
    then failed "No email configured. Set it in Settings first."
    else
      Actions.addEmailQueue actions "Rubel Engine Data Sync"
        ("Sync request at " ++ dateLocale e ++ JS.nl
         ++ "Features: " ++ enabledNames features) ;;
      ok ("Email queued for: " ++ Actions.emailAddress actions)
  else if isCase cmd "version" then
    ok ("Rubel Engine v1.0.0" ++ JS.nl ++ "Built with Expo React Native" ++ JS.nl
        ++ "100% offline-capable")
  else if isCase cmd "" then
    failed "No command entered. Type 'help' for options."
  else
    failed ("Unknown command: '" ++ text cmd ++ "'. Type 'help' for available commands.").

(** [runCommand] of [CommandScreen]: [input] is the text field; [e] serves
    the interpreter and the action it calls, [eLog] the log entry written
    afterwards. *)
Definition runCommand (e eLog : Env) (input : string) : App unit :=
  st <- get ;;
  let trimmed := JS.trim input in
  if negb (JS.truthy trimmed) then ret tt
  else
    result <- processCommand e trimmed (features st) (storeActions e st) ;;
    addCommandLog eLog trimmed (message result)
      (if success result then CommandLog.success else CommandLog.error).

(** ** The seeded features and the start store *)

Definition DEFAULT_FEATURES (e : Env) : list Feature.t :=
  [ Feature.mk "f001" "GPS Tracking" "Real-time location logging" true "Sensors" (dateISO e);
    Feature.mk "f002" "Camera Capture" "Offline photo capture" true "Sensors" (dateISO e);
    Feature.mk "f003" "Email Sync" "Sync data when online" true "Network" (dateISO e);
    Feature.mk "f004" "Dark Mode" "Always-on dark interface" true "UI" (dateISO e);
    Feature.mk "f005" "Haptic Feedback" "Tactile button responses" true "UI" (dateISO e);
    Feature.mk "f006" "Auto GPS Log" "Log GPS every 30 seconds" false "Sensors" (dateISO e);
    Feature.mk "f007" "Battery Monitor" "Track battery usage" false "System" (dateISO e);
    Feature.mk "f008" "Network Watch" "Monitor connectivity state" true "Network" (dateISO e);
    Feature.mk "f009" "Command History" "Save all command logs" true "System" (dateISO e);
    Feature.mk "f010" "Photo Compression" "Compress photos on save" false "Sensors" (dateISO e) ].

(** The values of [useState] in [AppProvider] *)
Definition initialStore (e : Env) : Store :=
  mkStore (DEFAULT_FEATURES e) [] [] [] [] "" true.

(** ** Concrete runs *)

Definition env0 : Env :=
  {| mathRandom36 := "0.4fzyo82mvyr";
     dateNow := 1700000000000;
     dateISO := "2023-11-14T22:13:20.000Z";
     dateLocale := "11/14/2023, 10:13:20 PM";
     platformOS := "android" |}.

Example toString36_1700000000000 : JS.toString36 1700000000000 = "loyw3v28"%string.
Proof. vm_compute. reflexivity. Qed.



(** ** Vocabulary of the properties *)

Definition ids (fs : list Feature.t) : list string := map Feature.id fs.

(** The function that [toggleFeature] maps over the list *)
Definition flipIf (id : string) (f : Feature.t) : Feature.t :=
  if (Feature.id f =? id)%string
  then Feature.withEnabled f (negb (Feature.enabled f))
  else f.

(** The cells of the store other than [features] *)
Definition besideFeatures (st : Store) :=
  (gpsLogs st, photoLogs st, commandLogs st, emailQueue st, emailAddress st, isOnline st).

(** One call of a capped append, with the readings of that call *)
Inductive Append :=
| AppendGPS (e : Env) (log : GPSReading)
| AppendPhoto (e : Env) (uri : string)
| AppendCommand (e : Env) (command result : string) (ty : CommandLog.type).

Definition append (a : Append) : App unit :=
  match a with
  | AppendGPS e log => addGPSLog e log
  | AppendPhoto e uri => addPhotoLog e uri
  | AppendCommand e command result ty => addCommandLog e command result ty
  end.

Fixpoint appendAll (calls : list Append) : App unit :=
  match calls with
  | [] => ret tt
  | a :: rest => append a ;; appendAll rest
  end.

Definition withinCaps (st : Store) : Prop :=
  length (gpsLogs st) <= 200
  /\ length (photoLogs st) <= 100
  /\ length (commandLogs st) <= 500.

(** One call of [addFeature], with the readings of that call *)
Record AddCall := {
  callEnv : Env;
  callName : string;
  callDescription : string;
  callCategory : string
}.

Fixpoint addFeatureAll (calls : list AddCall) : App unit :=
  match calls with
  | [] => ret tt
  | c :: rest =>
      addFeature (callEnv c) (callName c) (callDescription c) (callCategory c) ;;
      addFeatureAll rest
  end.

Definition env1 : Env :=
  {| mathRandom36 := "0.i";
     dateNow := 1700000000001;
     dateISO := "2023-11-14T22:13:20.001Z";
     dateLocale := "11/14/2023, 10:13:20 PM";
     platformOS := "android" |}.

Definition gps0 : GPSReading :=
  {| r_lat := 23.8125%float; r_lng := 90.4375%float; r_accuracy := 5%float |}.

(** A store whose GPS log holds 200 entries *)
Definition storeAtCap : Store :=
  mkStore [] (repeat (GPSLog.mk "old" 0%float 0%float 0%float "2023-01-01T00:00:00.000Z") 200)
          [] [] [] "" true.

(** [st1] is [st] with [enabled] negated in the features whose id is [id] *)
Definition togglesOnly (id : string) (st st1 : Store) : Prop :=
  features st1 = map (flipIf id) (features st)
  /\ besideFeatures st1 = besideFeatures st.

(** [st1] is [st] with feature [f] added at the end *)
Definition appendsFeature (f : Feature.t) (st st1 : Store) : Prop :=
  features st1 = (features st ++ [f])%list
  /\ besideFeatures st1 = besideFeatures st.

(** The last character of [s] is white space *)
Fixpoint endsWithWs (s : string) : bool :=
  match s with
  | EmptyString => false
  | String c EmptyString => JS.isWhiteSpace c
  | String _ r => endsWithWs r
  end.

(** ** The settings screen ([app/(tabs)/settings.tsx]) *)

Definition SECRET_TAPS : nat := 7.
Definition SECRET_TIMEOUT : nat := 3000.

(** The hidden-panel state of [SettingsScreen]: the ref [tapCount], the
    timeout that [tapTimer] holds while it is pending (with its delay), and
    the state cell [showAdmin]. *)
Record SecretState := mkSecret {
  tapCount : nat;
  tapTimer : option nat;
  showAdmin : bool
}.

(** [handleSecretTap]: count the tap, clear the pending timeout; at
    [SECRET_TAPS] taps reset the count and flip [showAdmin], otherwise arm a
    new timeout. *)
Definition handleSecretTap (s : SecretState) : SecretState :=
  let count := tapCount s + 1 in
  if SECRET_TAPS <=? count
  then mkSecret 0 None (negb (showAdmin s))
  else mkSecret count (Some SECRET_TIMEOUT) (showAdmin s).

(** The callback of the timeout, [() => { tapCount.current = 0 }]; it runs
    only while the timeout is pending. *)
Definition secretTimeout (s : SecretState) : SecretState :=
  match tapTimer s with
  | Some _ => mkSecret 0 None (showAdmin s)
  | None => s
  end.

Inductive SecretEvent := Tap | TimeoutFires.

Definition secretStep (s : SecretState) (ev : SecretEvent) : SecretState :=
  match ev with
  | Tap => handleSecretTap s
  | TimeoutFires => secretTimeout s
  end.

Definition secretRun (evs : list SecretEvent) (s : SecretState) : SecretState :=
  fold_left secretStep evs s.

(** [useRef(0)], [useRef(null)], [useState(false)] *)
Definition secretStart : SecretState := mkSecret 0 None false.

(** The longest run of taps with no timeout in between, the run in progress
    counting [cur] taps already *)
Fixpoint longestTapRun (cur : nat) (evs : list SecretEvent) : nat :=
  match evs with
  | [] => cur
  | Tap :: rest => longestTapRun (S cur) rest
  | TimeoutFires :: rest => Nat.max cur (longestTapRun 0 rest)
  end.

(** What holds of the hidden-panel state at all times *)
Definition secretInv (s : SecretState) : Prop :=
  tapCount s < SECRET_TAPS /\ (tapTimer s = None <-> tapCount s = 0).

(** The fields of the admin form *)
Record AdminForm := mkForm {
  newFeatureName : string;
  newFeatureDesc : string;
  newFeatureCat : string
}.

(** [Alert.alert(title, message)] *)
Record Alert := mkAlert { alertTitle : string; alertMessage : string }.

(** [addNewFeature]: returns the form fields as it leaves them and the alert
    it shows, if any. *)
Definition addNewFeature (e : Env) (form : AdminForm) : App (AdminForm * option Alert) :=
  if negb (JS.truthy (JS.trim (newFeatureName form)))
     || negb (JS.truthy (JS.trim (newFeatureDesc form)))
  then ret (form, Some (mkAlert "Required" "Name and description are required."))
  else
    addFeature e (JS.trim (newFeatureName form)) (JS.trim (newFeatureDesc form))
      (if JS.truthy (JS.trim (newFeatureCat form))
       then JS.trim (newFeatureCat form) else "Custom") ;;
    ret (mkForm "" "" "Custom", None).

(** [saveEmail]: returns the alert it shows. *)
Definition saveEmail (emailInput : string) : App Alert :=
  setEmailAddress (JS.trim emailInput) ;;
  ret (mkAlert "Saved" ("Email set to: " ++ JS.trim emailInput)).

(** ** Loading the store ([AppProvider], the first effect) *)

(** The try block of the loader runs its statements in order; a statement
    that throws ends the block, the [catch] swallows the error, and what the
    statements before it have set stays set.  A statement is a function to
    the new store, or [None] when it throws. *)
Fixpoint tryAll (steps : list (Store -> option Store)) (st : Store) : Store :=
  match steps with
  | [] => st
  | step :: rest =>
      match step st with
      | Some st1 => tryAll rest st1
      | None => st
      end
  end.

(** [if (x) setCell(JSON.parse(x))], with [x] the result of [getItem]
    ([None] for [null]) and [parse] standing for [JSON.parse] at the type of
    the cell ([None] when it throws) *)
Definition loadCell {A} (x : option string) (parse : string -> option A)
    (setCell : A -> Store -> Store) : Store -> option Store :=
  fun st =>
    match x with
    | Some text =>
        if JS.truthy text
        then match parse text with
             | Some v => Some (setCell v st)
             | None => None
             end
        else Some st
    | None => Some st
    end.

Definition withFeatures (v : list Feature.t) (st : Store) : Store :=
  mkStore v (gpsLogs st) (photoLogs st) (commandLogs st) (emailQueue st)
          (emailAddress st) (isOnline st).
Definition withGpsLogs (v : list GPSLog.t) (st : Store) : Store :=
  mkStore (features st) v (photoLogs st) (commandLogs st) (emailQueue st)
          (emailAddress st) (isOnline st).
Definition withPhotoLogs (v : list PhotoLog.t) (st : Store) : Store :=
  mkStore (features st) (gpsLogs st) v (commandLogs st) (emailQueue st)
          (emailAddress st) (isOnline st).
Definition withCommandLogs (v : list CommandLog.t) (st : Store) : Store :=
  mkStore (features st) (gpsLogs st) (photoLogs st) v (emailQueue st)
          (emailAddress st) (isOnline st).
Definition withEmailQueue (v : list EmailQueue.t) (st : Store) : Store :=
  mkStore (features st) (gpsLogs st) (photoLogs st) (commandLogs st) v
          (emailAddress st) (isOnline st).
Definition withEmailAddress (v : string) (st : Store) : Store :=
  mkStore (features st) (gpsLogs st) (photoLogs st) (commandLogs st) (emailQueue st)
          v (isOnline st).

(** What the six [getItem] calls give, in the order of the [Promise.all] *)
Record Stored := mkStored {
  storedFeatures : option string;
  storedGpsLogs : option string;
  storedPhotoLogs : option string;
  storedCommandLogs : option string;
  storedEmailQueue : option string;
  storedEmailAddress : option string
}.

Section Load.

(** [JSON.parse] at the type of each cell; [None] when it throws. *)
Variable parseFeatures : string -> option (list Feature.t).
Variable parseGpsLogs : string -> option (list GPSLog.t).
Variable parsePhotoLogs : string -> option (list PhotoLog.t).
Variable parseCommandLogs : string -> option (list CommandLog.t).
Variable parseEmailQueue : string -> option (list EmailQueue.t).

(** The loader: [items] is the outcome of [await Promise.all([...])], a
    rejection or the six values.  The result is the store when [setLoaded]
    is reached. *)
Definition load (items : exn + Stored) (st : Store) : Store :=
  match items with
  | inl _ => st
  | inr x =>
      tryAll
        [ loadCell (storedFeatures x) parseFeatures withFeatures;
          loadCell (storedGpsLogs x) parseGpsLogs withGpsLogs;
          loadCell (storedPhotoLogs x) parsePhotoLogs withPhotoLogs;
          loadCell (storedCommandLogs x) parseCommandLogs withCommandLogs;
          loadCell (storedEmailQueue x) parseEmailQueue withEmailQueue;
          loadCell (storedEmailAddress x) (fun em => Some em) withEmailAddress ]
        st
  end.

End Load.

(** What a cell holds after it was loaded from [x] with no throw *)
Definition loadedOr {A} (x : option string) (parse : string -> option A) (old : A) : A :=
  match x with
  | Some text =>
      if JS.truthy text
      then match parse text with Some v => v | None => old end
      else old
  | None => old
  end.

(** [x] holds a text that [parse] throws on *)
Definition corrupt {A} (x : option string) (parse : string -> option A) : Prop :=
  exists text, x = Some text /\ text <> "" /\ parse text = None.

(** [x] is missing, empty, or holds a text that [parse] accepts *)
Definition readable {A} (x : option string) (parse : string -> option A) : Prop :=
  forall text, x = Some text -> text <> "" -> parse text <> None.

(** A stand-in for [JSON.parse] in examples: it accepts the text of the
    empty array and nothing else. *)
Definition parseEmptyArray {A} (text : string) : option (list A) :=
  if (text =? "[]")%string then Some [] else None.

(** ** Vocabulary of the further properties *)

(** The first character of [s] is white space *)
Definition startsWithWs (s : string) : bool :=
  match s with
  | EmptyString => false
  | String c _ => JS.isWhiteSpace c
  end.

(** The base-36 digits of [n], least significant first, as [toString36From]
    meets them *)
Fixpoint lsd36 (fuel : nat) (n : N) : list N :=
  match fuel with
  | O => []
  | S fuel' => if (n =? 0)%N then [] else (n mod 36)%N :: lsd36 fuel' (n / 36)%N
  end.

(** The number that digits, least significant first, stand for *)
Fixpoint eval36 (ds : list N) : N :=
  match ds with
  | [] => 0%N
  | d :: rest => (d + 36 * eval36 rest)%N
  end.

(** Digits pushed one by one in front of [acc] *)
Fixpoint pushDigits (ds : list N) (acc : string) : string :=
  match ds with
  | [] => acc
  | d :: rest => pushDigits rest (String (JS.digit36 d) acc)
  end.

(** The value of a base-36 digit character *)
Definition digitVal (c : ascii) : N :=
  let k := N_of_ascii c in
  if (k <? 58)%N then (k - 48)%N else (k - 87)%N.

(** Reading a base-36 numeral back *)
Definition decode36 (s : string) : N :=
  eval36 (map digitVal (rev (list_ascii_of_string s))).

(** The entries that a sequence of appends makes, in call order, per list *)
Fixpoint gpsEntries (calls : list Append) : list GPSLog.t :=
  match calls with
  | [] => []
  | AppendGPS e log :: rest =>
      GPSLog.mk (uid e) (r_lat log) (r_lng log) (r_accuracy log) (dateISO e)
      :: gpsEntries rest
  | _ :: rest => gpsEntries rest
  end.

Fixpoint photoEntries (calls : list Append) : list PhotoLog.t :=
  match calls with
  | [] => []
  | AppendPhoto e uri :: rest => PhotoLog.mk (uid e) uri (dateISO e) :: photoEntries rest
  | _ :: rest => photoEntries rest
  end.

Fixpoint commandEntries (calls : list Append) : list CommandLog.t :=
  match calls with
  | [] => []
  | AppendCommand e command result ty :: rest =>
      CommandLog.mk (uid e) command result (dateISO e) ty :: commandEntries rest
  | _ :: rest => commandEntries rest
  end.

(** One call of [addEmailQueue], with the readings of that call *)
Record EnqueueCall := {
  enqueueEnv : Env;
  enqueueSubject : string;
  enqueueBody : string
}.

Fixpoint enqueueAll (calls : list EnqueueCall) : App unit :=
  match calls with
  | [] => ret tt
  | c :: rest =>
      addEmailQueue (enqueueEnv c) (enqueueSubject c) (enqueueBody c) ;;
      enqueueAll rest
  end.

Definition queuedItem (c : EnqueueCall) : EmailQueue.t :=
  EmailQueue.mk (uid (enqueueEnv c)) (enqueueSubject c) (enqueueBody c)
                (dateISO (enqueueEnv c)) false.

(** One call of a closure of [actions] *)
Inductive Call :=
| ToggleFeature (id : string)
| AddFeature (name description category : string)
| RemoveFeature (id : string)
| ClearCommandLogs
| ClearGPSLogs
| AddEmailQueue (subject body : string).

Definition invoke (actions : Actions.t) (c : Call) : App unit :=
  match c with
  | ToggleFeature id => Actions.toggleFeature actions id
  | AddFeature name description category =>
      Actions.addFeature actions name description category
  | RemoveFeature id => Actions.removeFeature actions id
  | ClearCommandLogs => Actions.clearCommandLogs actions
  | ClearGPSLogs => Actions.clearGPSLogs actions
  | AddEmailQueue subject body => Actions.addEmailQueue actions subject body
  end.

(** The verbs of the [switch] *)
Definition verbs : list string :=
  ["help"; "list"; "enable"; "disable"; "add"; "remove"; "status"; "clear-logs";
   "clear-gps"; "sync-email"; "version"].

(** [c] occurs in [s] *)
Fixpoint contains (c : ascii) (s : string) : bool :=
  match s with
  | EmptyString => false
  | String a r => Ascii.eqb a c || contains c r
  end.

(** A text typed on the command line as a field of a new feature: no [|]
    in it, no white space at either end *)
Definition cleanField (t : string) : Prop :=
  contains "|" t = false /\ startsWithWs t = false /\ endsWithWs t = false.

(** [y] is [x] but for the flag [enabled] *)
Definition keepsAllButEnabled (x y : Feature.t) : Prop :=
  Feature.id y = Feature.id x
  /\ Feature.name y = Feature.name x
  /\ Feature.description y = Feature.description x
  /\ Feature.category y = Feature.category x
  /\ Feature.addedAt y = Feature.addedAt x.

(** Position by position, the features of [st1] are those of [st]: with the
    flag negated and all else kept where the id is [id], the very same
    feature elsewhere; the other cells are the same. *)
Definition negatesFlagsAt (id : string) (st st1 : Store) : Prop :=
  Forall2 (fun x y =>
             if (Feature.id x =? id)%string
             then keepsAllButEnabled x y
                  /\ Feature.enabled y = negb (Feature.enabled x)
             else y = x)
          (features st) (features st1)
  /\ besideFeatures st1 = besideFeatures st.

(** What [uid()] reads: the random text after "0." and the clock *)
Definition readings (e : Env) : string * N :=
  (JS.sliceFrom 2 (mathRandom36 e), dateNow e).

(** Clock readings whose base-36 text has eight characters: from 36^7 to
    36^8 - 1 milliseconds, 1972-06-26 to 2059-05-25 *)
Definition clockInRange (e : Env) : Prop :=
  (78364164096 <= dateNow e < 2821109907456)%N.

(** * Properties *)

(** ** Running the monad *)

Lemma run_ret {A} (a : A) (st : Store) : run (ret a) st = inr (a, st).
Proof. reflexivity. Qed.

Lemma run_bind {A B} (c : App A) (k : A -> App B) (st : Store) :
  run (bind c k) st =
  match run c st with
  | inl err => inl err
  | inr (a, st') => run (k a) st'
  end.
Proof.
  unfold run. cbn. destruct (runStateT c st) as [err | [a st']]; reflexivity.
Qed.

Lemma run_setFeatures upd st :
  run (setFeatures upd) st =
  inr (tt, mkStore (upd (features st)) (gpsLogs st) (photoLogs st) (commandLogs st)
                   (emailQueue st) (emailAddress st) (isOnline st)).
Proof. reflexivity. Qed.

Lemma Store_eta (st : Store) :
  mkStore (features st) (gpsLogs st) (photoLogs st) (commandLogs st)
          (emailQueue st) (emailAddress st) (isOnline st) = st.
Proof. destruct st; reflexivity. Qed.

(** ** Lists of features *)


Lemma filter_other_absent id fs :
  ~ In id (ids fs) ->
  filter (fun f => negb (Feature.id f =? id)%string) fs = fs.
Proof.
  induction fs as [| f fs IH]; intros Hnot; [reflexivity |].
  cbn. destruct (String.eqb_spec (Feature.id f) id) as [Heq | Hne]; cbn.
  - exfalso. apply Hnot. left. exact Heq.
  - f_equal. apply IH. intros Hin. apply Hnot. right. exact Hin.
Qed.

Lemma filter_idem {A} (p : A -> bool) (l : list A) :
  filter p (filter p l) = filter p l.
Proof.
  induction l as [| a l IH]; [reflexivity |].
  cbn. destruct (p a) eqn:Hp; cbn; rewrite ?Hp, IH; reflexivity.
Qed.

(** ** C10: the clear operations *)

(** C10. [clearGPSLogs] replaces the GPS log list by the empty list and
    [clearCommandLogs] the command log list; each returns normally and leaves
    the features, the other logs, the e-mail queue, the e-mail address and the
    connectivity flag as they were. *)
Theorem clear_logs_frame (st : Store) :
  run clearGPSLogs st =
    inr (tt, mkStore (features st) [] (photoLogs st) (commandLogs st)
                     (emailQueue st) (emailAddress st) (isOnline st))
  /\ run clearCommandLogs st =
    inr (tt, mkStore (features st) (gpsLogs st) (photoLogs st) []
                     (emailQueue st) (emailAddress st) (isOnline st)).
Proof. split; reflexivity. Qed.

(** ** C9: [removeFeature] *)

(** C9. [removeFeature id] returns normally.  The features that remain are
    those whose id differs from [id], in their old order, and no other cell
    changes; when [id] is absent the store is unchanged; a second
    [removeFeature id] changes nothing more. *)
Theorem removeFeature_idempotent (id : string) (st : Store) :
  exists st1,
    run (removeFeature id) st = inr (tt, st1)
    /\ (~ In id (ids (features st)) -> st1 = st)
    /\ features st1 = filter (fun f => negb (Feature.id f =? id)%string) (features st)
    /\ (forall f, In f (features st1) <-> In f (features st) /\ Feature.id f <> id)
    /\ besideFeatures st1 = besideFeatures st
    /\ run (removeFeature id ;; removeFeature id) st = run (removeFeature id) st.
Proof.
  eexists. split; [apply run_setFeatures |]. cbn [features gpsLogs photoLogs
    commandLogs emailQueue emailAddress isOnline].
  split; [| split; [reflexivity | split; [| split; [reflexivity |]]]].
  - intros Habs. rewrite (filter_other_absent id _ Habs). apply Store_eta.
  - intros f. rewrite filter_In. split; intros [Hin Hid]; split; try exact Hin.
    + intros Heq. rewrite <- Heq, String.eqb_refl in Hid. discriminate.
    + destruct (String.eqb_spec (Feature.id f) id); [contradiction | reflexivity].
  - rewrite run_bind. unfold removeFeature. rewrite !run_setFeatures.
    cbn [features gpsLogs photoLogs commandLogs emailQueue emailAddress isOnline].
    rewrite filter_idem. reflexivity.
Qed.

Lemma removeFeature_idempotent_witness :
  exists st1,
    run (removeFeature "f003") (initialStore env0) = inr (tt, st1)
    /\ ids (features st1)
       = ["f001"; "f002"; "f004"; "f005"; "f006"; "f007"; "f008"; "f009"; "f010"]
    /\ run (removeFeature "f003" ;; removeFeature "f003") (initialStore env0)
       = inr (tt, st1)
    /\ run (removeFeature "zzz") (initialStore env0) = inr (tt, initialStore env0).
Proof.
  destruct (removeFeature_idempotent "f003" (initialStore env0))
    as (st1 & Hrun & _ & Hfs & _ & _ & Htwice).
  destruct (removeFeature_idempotent "zzz" (initialStore env0))
    as (st2 & Hrun2 & Habs & _).
  exists st1. split; [exact Hrun |]. split; [rewrite Hfs; reflexivity |].
  split; [rewrite Htwice; exact Hrun |].
  rewrite Hrun2. rewrite Habs; [reflexivity |].
  cbn. intros H. repeat (destruct H as [H | H]; [discriminate H |]). exact H.
Defined.

(** ** C3: [toggleFeature] *)



(** Toggling twice restores every feature. *)
Lemma flipIf_involutive id f : flipIf id (flipIf id f) = f.
Proof.
  unfold flipIf. destruct (String.eqb_spec (Feature.id f) id) as [Heq | Hne].
  - cbn [Feature.withEnabled Feature.id]. rewrite Heq, String.eqb_refl.
    destruct f as [i n d b c a]. cbn. rewrite negb_involutive. reflexivity.
  - destruct (String.eqb_spec (Feature.id f) id); [contradiction | reflexivity].
Qed.

(** X3. [toggleFeature id] run twice in a row returns normally and leaves
    the whole store as it was. *)
Lemma toggleFeature_twice id st :
  run (toggleFeature id ;; toggleFeature id) st = inr (tt, st).
Proof.
  rewrite run_bind. unfold toggleFeature. rewrite !run_setFeatures.
  cbn [features gpsLogs photoLogs commandLogs emailQueue emailAddress isOnline].
  change (fun f : Feature.t => if (Feature.id f =? id)%string
            then Feature.withEnabled f (negb (Feature.enabled f)) else f)
    with (flipIf id).
  rewrite map_map, (map_ext _ (fun f => f) (flipIf_involutive id)), map_id.
  rewrite Store_eta. reflexivity.
Qed.


(** ** C1: [addFeature] *)

(** C1, as stated, fails: called with an empty name and a description of
    blanks, [addFeature] returns normally and the list has one feature more. *)
Lemma addFeature_accepts_empty :
  JS.trim "" = "" /\ JS.trim "   " = ""
  /\ exists st1,
       run (addFeature env0 "" "   " "Custom") (initialStore env0) = inr (tt, st1)
       /\ length (features st1) = S (length (features (initialStore env0))).
Proof. split; [reflexivity |]. split; [reflexivity |]. eexists. split; reflexivity. Qed.

(** C1, amended. [addFeature] makes no check and always returns normally:
    whatever the name and the description, the new list is the old one
    followed by one feature that carries the given fields, the id [uid()],
    [enabled = false] and the current time; the other cells do not change. *)
Theorem addFeature_appends (e : Env) (name description category : string) (st : Store) :
  exists st1,
    run (addFeature e name description category) st = inr (tt, st1)
    /\ features st1
       = (features st
          ++ [Feature.mk (uid e) name description false category (dateISO e)])%list
    /\ besideFeatures st1 = besideFeatures st.
Proof. eexists. split; [apply run_setFeatures |]. split; reflexivity. Qed.

(** ** C6: the capped logs *)

Section Capped.
Context {A : Type}.
Variables (cap : nat) (x : A) (prev : list A).

Lemma capped_length : length (firstn (S cap) (x :: prev)) <= S cap.
Proof. apply firstn_le_length. Qed.

Lemma capped_head : hd_error (firstn (S cap) (x :: prev)) = Some x.
Proof. reflexivity. Qed.

Lemma capped_below :
  length prev < S cap -> firstn (S cap) (x :: prev) = x :: prev.
Proof.
  intros Hlt. cbn [firstn]. f_equal. apply firstn_all2. lia.
Qed.

Lemma capped_full :
  length prev = S cap ->
  firstn (S cap) (x :: prev) = x :: removelast prev
  /\ length (firstn (S cap) (x :: prev)) = S cap.
Proof.
  intros Hlen. split.
  - cbn [firstn]. f_equal. rewrite removelast_firstn_len, Hlen. reflexivity.
  - rewrite length_firstn. cbn [length]. lia.
Qed.

End Capped.

Lemma run_append_withinCaps (a : Append) (st : Store) :
  withinCaps st ->
  exists st1, run (append a) st = inr (tt, st1) /\ withinCaps st1.
Proof.
  intros (Hg & Hp & Hc).
  destruct a; (eexists; split; [reflexivity |]); unfold withinCaps;
    cbn [gpsLogs photoLogs commandLogs]; repeat split; try assumption.
  - change 200 with (S 199). apply capped_length.
  - change 100 with (S 99). apply capped_length.
  - change 500 with (S 499). apply capped_length.
Qed.

Lemma run_appendAll_withinCaps (calls : list Append) :
  forall st, withinCaps st ->
  exists st1, run (appendAll calls) st = inr (tt, st1) /\ withinCaps st1.
Proof.
  induction calls as [| a rest IH]; intros st Hst.
  - exists st. split; [reflexivity | exact Hst].
  - destruct (run_append_withinCaps a st Hst) as (st1 & Hrun & Hst1).
    destruct (IH st1 Hst1) as (st2 & Hrest & Hst2).
    exists st2. split; [| exact Hst2].
    cbn [appendAll]. rewrite run_bind, Hrun. exact Hrest.
Qed.

(** C6. Each of [addGPSLog] (cap 200), [addPhotoLog] (cap 100) and
    [addCommandLog] (cap 500) returns normally and, from any store, leaves its
    list no longer than the cap with the new entry first; below the cap the
    old entries all follow it; at the cap the old entries but the last follow
    it, which makes exactly cap entries.  Hence any sequence of appends run
    from a store within the caps ends in a store within the caps. *)
Theorem capped_logs_newest_first :
  (forall e log st, exists st1,
      let entry := GPSLog.mk (uid e) (r_lat log) (r_lng log) (r_accuracy log) (dateISO e) in
      run (addGPSLog e log) st = inr (tt, st1)
      /\ length (gpsLogs st1) <= 200
      /\ hd_error (gpsLogs st1) = Some entry
      /\ (length (gpsLogs st) < 200 -> gpsLogs st1 = entry :: gpsLogs st)
      /\ (length (gpsLogs st) = 200 ->
          gpsLogs st1 = entry :: removelast (gpsLogs st)
          /\ length (gpsLogs st1) = 200))
  /\ (forall e uri st, exists st1,
      let entry := PhotoLog.mk (uid e) uri (dateISO e) in
      run (addPhotoLog e uri) st = inr (tt, st1)
      /\ length (photoLogs st1) <= 100
      /\ hd_error (photoLogs st1) = Some entry
      /\ (length (photoLogs st) < 100 -> photoLogs st1 = entry :: photoLogs st)
      /\ (length (photoLogs st) = 100 ->
          photoLogs st1 = entry :: removelast (photoLogs st)
          /\ length (photoLogs st1) = 100))
  /\ (forall e command result ty st, exists st1,
      let entry := CommandLog.mk (uid e) command result (dateISO e) ty in
      run (addCommandLog e command result ty) st = inr (tt, st1)
      /\ length (commandLogs st1) <= 500
      /\ hd_error (commandLogs st1) = Some entry
      /\ (length (commandLogs st) < 500 -> commandLogs st1 = entry :: commandLogs st)
      /\ (length (commandLogs st) = 500 ->
          commandLogs st1 = entry :: removelast (commandLogs st)
          /\ length (commandLogs st1) = 500))
  /\ (forall calls st, withinCaps st ->
      exists st1, run (appendAll calls) st = inr (tt, st1) /\ withinCaps st1).
Proof.
  split; [| split; [| split]].
  - intros e log st. eexists. cbv zeta. split; [reflexivity |].
    cbn [gpsLogs]. change 200 with (S 199).
    split; [apply capped_length |]. split; [apply capped_head |].
    split; [apply capped_below | apply capped_full].
  - intros e uri st. eexists. cbv zeta. split; [reflexivity |].
    cbn [photoLogs]. change 100 with (S 99).
    split; [apply capped_length |]. split; [apply capped_head |].
    split; [apply capped_below | apply capped_full].
  - intros e command result ty st. eexists. cbv zeta. split; [reflexivity |].
    cbn [commandLogs]. change 500 with (S 499).
    split; [apply capped_length |]. split; [apply capped_head |].
    split; [apply capped_below | apply capped_full].
  - intros calls st. apply run_appendAll_withinCaps.
Qed.

Lemma capped_logs_newest_first_witness :
  exists st1 st2,
    run (addGPSLog env1 gps0) storeAtCap = inr (tt, st1)
    /\ gpsLogs st1
       = GPSLog.mk (uid env1) (r_lat gps0) (r_lng gps0) (r_accuracy gps0) (dateISO env1)
         :: removelast (gpsLogs storeAtCap)
    /\ length (gpsLogs st1) = 200
    /\ run (appendAll [AppendPhoto env0 "file:///a.jpg"; AppendGPS env1 gps0])
           (initialStore env0) = inr (tt, st2)
    /\ withinCaps st2.
Proof.
  destruct capped_logs_newest_first as (Hgps & _ & _ & Hseq).
  destruct (Hgps env1 gps0 storeAtCap) as (st1 & Hrun & _ & _ & _ & Hfull).
  destruct (Hfull eq_refl) as (Hlist & Hlen).
  destruct (Hseq [AppendPhoto env0 "file:///a.jpg"; AppendGPS env1 gps0]
                 (initialStore env0)) as (st2 & Hrun2 & Hcaps).
  { repeat split; apply Nat.le_0_l. }
  exists st1, st2.
  split; [exact Hrun |]. split; [exact Hlist |]. split; [exact Hlen |].
  split; [exact Hrun2 | exact Hcaps].
Defined.

(** ** C8: the ids of added features *)

Lemma addFeature_ids_step (c : AddCall) (st : Store) :
  exists st1,
    run (addFeature (callEnv c) (callName c) (callDescription c) (callCategory c)) st
    = inr (tt, st1)
    /\ ids (features st1) = (ids (features st) ++ [uid (callEnv c)])%list.
Proof.
  eexists. split; [apply run_setFeatures |].
  cbn [features]. unfold ids. rewrite map_app. reflexivity.
Qed.

Lemma run_addFeatureAll_ids (calls : list AddCall) :
  forall st, exists st1,
    run (addFeatureAll calls) st = inr (tt, st1)
    /\ ids (features st1)
       = (ids (features st) ++ map (fun c => uid (callEnv c)) calls)%list.
Proof.
  induction calls as [| c rest IH]; intros st.
  - exists st. split; [reflexivity |]. cbn [map]. rewrite app_nil_r. reflexivity.
  - destruct (addFeature_ids_step c st) as (st1 & Hrun & Hids).
    destruct (IH st1) as (st2 & Hrest & Hids2).
    exists st2. split.
    + cbn [addFeatureAll]. rewrite run_bind, Hrun. exact Hrest.
    + rewrite Hids2, Hids, <- app_assoc. reflexivity.
Qed.

(** C8, as stated, fails: [addFeature] takes the id from [uid()] and compares
    it with nothing.  Two calls that read the same random number within the
    same millisecond leave two features with one id. *)
Lemma addFeature_ids_collide :
  exists st1,
    run (addFeature env0 "Radar" "Sweep" "Custom" ;;
         addFeature env0 "Sonar" "Ping" "Custom") (initialStore env0) = inr (tt, st1)
    /\ ~ NoDup (ids (features st1)).
Proof.
  eexists. split; [reflexivity |].
  cbn. intros Hnd.
  do 10 (apply NoDup_cons_iff in Hnd; destruct Hnd as [_ Hnd]).
  apply NoDup_cons_iff in Hnd as [Hnotin _]. apply Hnotin. left. reflexivity.
Qed.

(** ** The interpreter: failure leaves the store alone *)

Lemma run_ok msg st : run (ok msg) st = inr (mkResult true msg, st).
Proof. reflexivity. Qed.

Lemma run_failed msg st : run (failed msg) st = inr (mkResult false msg, st).
Proof. reflexivity. Qed.

Lemma run_then_ok (c : App unit) msg st :
  run (c ;; ok msg) st =
  match run c st with
  | inl err => inl err
  | inr (_, st1) => inr (mkResult true msg, st1)
  end.
Proof. rewrite run_bind. destruct (run c st) as [err | [u st1]]; reflexivity. Qed.

Ltac case_tests :=
  repeat match goal with
  | |- context [if ?b then _ else _] => destruct b eqn:?
  | |- context [match find ?p ?l with _ => _ end] => destruct (find p l) eqn:?
  end.

Lemma processCommand_failure_pure e input fs actions st r st1 :
  run (processCommand e input fs actions) st = inr (r, st1) ->
  success r = false ->
  st1 = st
  /\ forall actions' st',
       Actions.emailAddress actions' = Actions.emailAddress actions ->
       run (processCommand e input fs actions') st' = inr (r, st').
Proof.
  intros Hrun Hfail.
  assert (forall actions' st',
    Actions.emailAddress actions' = Actions.emailAddress actions ->
    st1 = st /\ run (processCommand e input fs actions') st' = inr (r, st')) as Hboth.
  2:{ split.
      - apply (Hboth actions st eq_refl).
      - intros actions' st' Heq. apply (Hboth actions' st' Heq). }
  intros actions' st' Heq. revert Hrun.
  unfold processCommand. cbv zeta. rewrite Heq.
  case_tests; rewrite ?run_ok, ?run_failed, ?run_then_ok; intros Hrun.
  all: try (injection Hrun as <- <-; first [discriminate Hfail | split; reflexivity]).
  all: match type of Hrun with
       | match ?c with _ => _ end = _ =>
           destruct c as [err | [u st2]]; [discriminate Hrun |];
           injection Hrun as <- <-; discriminate Hfail
       end.
Qed.

Lemma processCommand_returns e input fs st :
  exists r st1, run (processCommand e input fs (storeActions e st)) st = inr (r, st1).
Proof.
  unfold processCommand. cbv zeta.
  case_tests; rewrite ?run_ok, ?run_failed, ?run_then_ok; do 2 eexists; reflexivity.
Qed.

(** C4. Run with the operations of the store, [processCommand] returns a
    [CommandResult] on every input, array of features and store: it never
    throws.  Whatever the closures passed as [actions], a result with
    [success = false] comes with the store untouched, and the same result
    comes out of any other closures on any store: none of them was called. *)
Theorem processCommand_never_throws :
  (forall e input fs st,
      exists r st1, run (processCommand e input fs (storeActions e st)) st = inr (r, st1))
  /\ (forall e input fs actions st r st1,
      run (processCommand e input fs actions) st = inr (r, st1) ->
      success r = false ->
      st1 = st
      /\ forall actions' st',
           Actions.emailAddress actions' = Actions.emailAddress actions ->
           run (processCommand e input fs actions') st' = inr (r, st')).
Proof.
  split.
  - apply processCommand_returns.
  - apply processCommand_failure_pure.
Qed.

(** ** Tokens of a trimmed line *)

Lemma endsWithWs_cons c r :
  r <> "" -> endsWithWs (String c r) = endsWithWs r.
Proof. destruct r; [congruence | reflexivity]. Qed.

Lemma trimEnd_no_trailing s : endsWithWs (JS.trimEnd s) = false.
Proof.
  induction s as [| c r IH]; [reflexivity |].
  cbn [JS.trimEnd]. destruct (JS.trimEnd r) as [| c' r'] eqn:Hr.
  - destruct (JS.isWhiteSpace c) eqn:Hc; [reflexivity | cbn; exact Hc].
  - rewrite endsWithWs_cons; [exact IH | discriminate].
Qed.

Lemma append_char_nonempty cur c : cur ++ String c "" <> "".
Proof. destruct cur; discriminate. Qed.

Lemma splitWsFrom_nonempty s :
  forall cur inRun,
    endsWithWs s = false ->
    cur <> "" \/ (inRun = true /\ s <> "") ->
    Forall (fun t => t <> "") (JS.splitWsFrom cur inRun s).
Proof.
  induction s as [| c r IH]; intros cur inRun Hend Hcur.
  - cbn. constructor; [| constructor]. destruct Hcur as [H | [_ H]]; congruence.
  - assert (JS.isWhiteSpace c = true -> r <> "") as Hr.
    { intros Hc ->. cbn in Hend. congruence. }
    assert (endsWithWs r = false) as Hend'.
    { destruct r; [reflexivity |]. rewrite endsWithWs_cons in Hend; [exact Hend | discriminate]. }
    cbn [JS.splitWsFrom]. destruct (JS.isWhiteSpace c) eqn:Hc.
    + destruct inRun.
      * apply IH; [exact Hend' |]. right. split; [reflexivity | apply Hr; reflexivity].
      * constructor.
        -- destruct Hcur as [H | [H _]]; [exact H | discriminate H].
        -- apply IH; [exact Hend' |]. right. split; [reflexivity | apply Hr; reflexivity].
    + apply IH; [exact Hend' |]. left. apply append_char_nonempty.
Qed.

(** After [trim], the tokens that follow the first one are never empty. *)
Lemma args_nonempty input verb args :
  JS.splitWs (JS.trim input) = verb :: args ->
  Forall (fun t => t <> "") args.
Proof.
  unfold JS.splitWs, JS.trim. pose proof (trimEnd_no_trailing (JS.trimStart input)) as Hend.
  destruct (JS.trimEnd (JS.trimStart input)) as [| c r] eqn:Ht.
  - cbn. intros H. injection H as _ <-. constructor.
  - assert (endsWithWs r = false) as Hend'.
    { destruct r; [reflexivity |]. rewrite endsWithWs_cons in Hend; [exact Hend | discriminate]. }
    cbn [JS.splitWsFrom]. destruct (JS.isWhiteSpace c) eqn:Hc.
    + intros H. injection H as _ <-.
      apply splitWsFrom_nonempty; [exact Hend' |]. right. split; [reflexivity |].
      intros ->. cbn in Hend. congruence.
    + intros H.
      pose proof (splitWsFrom_nonempty r ("" ++ String c "") false Hend'
                    (or_introl (append_char_nonempty "" c))) as Hall.
      rewrite H in Hall. inversion Hall; assumption.
Qed.

Lemma truthy_nonempty s : s <> "" -> JS.truthy s = true.
Proof. destruct s; [congruence | reflexivity]. Qed.

(** ** The verbs *)

(** Entering the [switch]: with the tokens and the lower-cased verb known,
    the tests on the verb compute. *)
Ltac dispatch Hparts Hverb :=
  unfold processCommand; cbv zeta; rewrite Hparts;
  cbn [nth_error option_map skipn]; rewrite Hverb;
  cbn [isCase String.eqb Ascii.eqb Bool.eqb].

(** C7. On a line whose verb is [sync-email], with the e-mail address of the
    store passed along as [CommandScreen] does: if the address is empty the
    command fails and the store is as before; otherwise it succeeds and the
    e-mail queue is the old one followed by exactly one item, whose [sent] is
    [false], while no other cell changes. *)
Theorem sync_email_enqueues (e : Env) (input verb : string) (args : list string)
    (st : Store) :
  JS.splitWs (JS.trim input) = verb :: args ->
  JS.toLowerCase verb = "sync-email" ->
  let res := run (processCommand e input (features st) (storeActions e st)) st in
  (emailAddress st = "" ->
     res = inr (mkResult false "No email configured. Set it in Settings first.", st))
  /\ (emailAddress st <> "" ->
      exists item,
        res = inr (mkResult true ("Email queued for: " ++ emailAddress st),
                   mkStore (features st) (gpsLogs st) (photoLogs st) (commandLogs st)
                           (emailQueue st ++ [item])%list (emailAddress st) (isOnline st))
        /\ EmailQueue.sent item = false
        /\ EmailQueue.subject item = "Rubel Engine Data Sync").
Proof.
  intros Hparts Hverb res. subst res. dispatch Hparts Hverb.
  cbn [Actions.emailAddress storeActions]. split.
  - intros ->. reflexivity.
  - intros Hne. rewrite (truthy_nonempty _ Hne). cbn [negb].
    eexists. split; [reflexivity |]. split; reflexivity.
Qed.

Lemma sync_email_enqueues_witness :
  exists st1 st2 msg,
    run (processCommand env0 "sync-email" (features (initialStore env0))
           (storeActions env0 (initialStore env0))) (initialStore env0)
    = inr (mkResult false msg, initialStore env0)
    /\ run (setEmailAddress "a@b.com") (initialStore env0) = inr (tt, st1)
    /\ run (processCommand env0 "Sync-Email now" (features st1) (storeActions env0 st1)) st1
       = inr (mkResult true "Email queued for: a@b.com", st2)
    /\ map EmailQueue.sent (emailQueue st2) = [false].
Proof.
  pose (st1 := mkStore (DEFAULT_FEATURES env0) [] [] [] [] "a@b.com" true).
  destruct (sync_email_enqueues env0 "sync-email" "sync-email" [] (initialStore env0)
              eq_refl eq_refl) as [Hempty _].
  destruct (sync_email_enqueues env0 "Sync-Email now" "Sync-Email" ["now"] st1
              eq_refl eq_refl) as [_ Hset].
  destruct Hset as (item & Hrun & Hsent & _); [discriminate |].
  exists st1. eexists. eexists.
  split; [exact (Hempty eq_refl) |]. split; [reflexivity |].
  split; [exact Hrun |]. cbn. rewrite Hsent. reflexivity.
Defined.

Lemma enable_call e input verb a0 rest fs actions :
  JS.splitWs (JS.trim input) = verb :: a0 :: rest ->
  JS.toLowerCase verb = "enable" ->
  processCommand e input fs actions =
  match find (matchesTarget a0 (a0 :: rest)) fs with
  | None => failed ("Feature not found: " ++ a0)
  | Some f =>
      if Feature.enabled f then ok (Feature.name f ++ " is already enabled.")
      else Actions.toggleFeature actions (Feature.id f) ;;
           ok ("Enabled: " ++ Feature.name f)
  end.
Proof.
  intros Hparts Hverb.
  pose proof (args_nonempty _ _ _ Hparts) as Hargs.
  apply Forall_inv in Hargs. apply truthy_nonempty in Hargs.
  dispatch Hparts Hverb. cbn [falsy text nth_error]. rewrite Hargs. reflexivity.
Qed.

Lemma disable_call e input verb a0 rest fs actions :
  JS.splitWs (JS.trim input) = verb :: a0 :: rest ->
  JS.toLowerCase verb = "disable" ->
  processCommand e input fs actions =
  match find (matchesTarget a0 (a0 :: rest)) fs with
  | None => failed ("Feature not found: " ++ a0)
  | Some f =>
      if negb (Feature.enabled f) then ok (Feature.name f ++ " is already disabled.")
      else Actions.toggleFeature actions (Feature.id f) ;;
           ok ("Disabled: " ++ Feature.name f)
  end.
Proof.
  intros Hparts Hverb.
  pose proof (args_nonempty _ _ _ Hparts) as Hargs.
  apply Forall_inv in Hargs. apply truthy_nonempty in Hargs.
  dispatch Hparts Hverb. cbn [falsy text nth_error]. rewrite Hargs. reflexivity.
Qed.

(** What negating under one id does to each feature, and that with distinct
    ids it touches the target alone. *)
Lemma flipIf_same id f :
  Feature.id f = id -> flipIf id f = Feature.withEnabled f (negb (Feature.enabled f)).
Proof. intros <-. unfold flipIf. rewrite String.eqb_refl. reflexivity. Qed.

Lemma flipIf_other id f : Feature.id f <> id -> flipIf id f = f.
Proof.
  intros Hne. unfold flipIf.
  destruct (String.eqb_spec (Feature.id f) id); [contradiction | reflexivity].
Qed.

Lemma ids_injective fs :
  NoDup (ids fs) ->
  forall f g, In f fs -> In g fs -> Feature.id f = Feature.id g -> f = g.
Proof.
  induction fs as [| h fs IH]; intros Hnd f g Hf Hg Heq; [destruct Hf |].
  cbn in Hnd. apply NoDup_cons_iff in Hnd as [Hnotin Hnd].
  destruct Hf as [<- | Hf], Hg as [<- | Hg].
  - reflexivity.
  - exfalso. apply Hnotin. rewrite Heq. apply in_map. exact Hg.
  - exfalso. apply Hnotin. rewrite <- Heq. apply in_map. exact Hf.
  - apply IH; assumption.
Qed.

Lemma flipIf_only_target fs f :
  NoDup (ids fs) -> In f fs ->
  forall g, In g fs -> g <> f -> flipIf (Feature.id f) g = g.
Proof.
  intros Hnd Hf g Hg Hne. apply flipIf_other. intros Heq. apply Hne.
  exact (ids_injective fs Hnd g f Hg Hf Heq).
Qed.

(** ** C2: the [add] command *)

(** Two lines of [add].  The line [add |foo|bar] has an empty first segment,
    the name: the command fails and no feature is made.  The line
    [add foo|bar|] has an empty third segment: the feature is made with the
    empty category. *)
Lemma add_command_counterexample :
  (length (filter JS.truthy (map JS.trim (JS.splitOn "|" "|foo|bar"))) = 2
   /\ run (processCommand env0 "add |foo|bar" (features (initialStore env0))
             (storeActions env0 (initialStore env0))) (initialStore env0)
      = inr (mkResult false "Name and description are required.", initialStore env0))
  /\ (map JS.trim (JS.splitOn "|" "foo|bar|") = ["foo"; "bar"; ""]
      /\ exists st1,
           run (processCommand env0 "add foo|bar|" (features (initialStore env0))
                  (storeActions env0 (initialStore env0))) (initialStore env0)
           = inr (mkResult true "Feature added: foo []", st1)
           /\ appendsFeature
                (Feature.mk (uid env0) "foo" "bar" false "" (dateISO env0))
                (initialStore env0) st1).
Proof.
  split; [split; reflexivity |]. split; [reflexivity |].
  eexists. split; [reflexivity |]. split; reflexivity.
Qed.

(** The [add] command, case by case.  On a line whose verb is [add], the
    tokens after the verb are joined by single spaces, the text is split at
    each [|] and every segment is trimmed.  With fewer than two segments, or
    an empty first or second segment, the command fails and the store is as
    before.  Otherwise it succeeds and the store differs only in one feature
    added at the end: name and description are the first two segments,
    [enabled = false], and the category is the third segment as it stands,
    empty or not, or "Custom" when there is no third segment. *)
Lemma add_command_creates (e : Env) (input verb : string) (args : list string)
    (st : Store) :
  JS.splitWs (JS.trim input) = verb :: args ->
  JS.toLowerCase verb = "add" ->
  let splits := map JS.trim (JS.splitOn "|" (JS.join " " args)) in
  let res := run (processCommand e input (features st) (storeActions e st)) st in
  (length splits < 2 \/ nth 0 splits "" = "" \/ nth 1 splits "" = "" ->
     exists msg, res = inr (mkResult false msg, st))
  /\ (forall name desc more,
        splits = name :: desc :: more ->
        name <> "" -> desc <> "" ->
        let cat := match more with [] => "Custom" | c :: _ => c end in
        exists st1,
          res = inr (mkResult true ("Feature added: " ++ name ++ " [" ++ cat ++ "]"), st1)
          /\ appendsFeature (Feature.mk (uid e) name desc false cat (dateISO e)) st st1).
Proof.
  intros Hparts Hverb splits res. subst res. dispatch Hparts Hverb.
  fold splits. split.
  - intros Hbad. destruct (length splits <? 2) eqn:Hlen; [eexists; reflexivity |].
    apply Nat.ltb_ge in Hlen.
    destruct splits as [| name [| desc more]]; cbn in Hlen; try lia.
    cbn [nth_error falsy]. cbn [nth] in Hbad.
    destruct Hbad as [Hbad | [-> | ->]]; [cbn in Hbad; lia | |];
      cbn [JS.truthy negb orb]; rewrite ?orb_true_r; eexists; reflexivity.
  - intros name desc more Hsplits Hname Hdesc. rewrite Hsplits.
    cbn [length Nat.ltb Nat.leb nth_error falsy text].
    rewrite (truthy_nonempty _ Hname), (truthy_nonempty _ Hdesc). cbn [negb orb].
    destruct more as [| c more']; cbv zeta; cbn [nth_error];
      (eexists; split; [reflexivity |]; split; reflexivity).
Qed.

Lemma add_command_creates_witness :
  exists st1 st2 msg,
    run (processCommand env0 "add foo|bar|baz" (features (initialStore env0))
           (storeActions env0 (initialStore env0))) (initialStore env0)
    = inr (mkResult true "Feature added: foo [baz]", st1)
    /\ appendsFeature (Feature.mk (uid env0) "foo" "bar" false "baz" (dateISO env0))
         (initialStore env0) st1
    /\ run (processCommand env0 "ADD  foo | bar" (features (initialStore env0))
           (storeActions env0 (initialStore env0))) (initialStore env0)
       = inr (mkResult true "Feature added: foo [Custom]", st2)
    /\ appendsFeature (Feature.mk (uid env0) "foo" "bar" false "Custom" (dateISO env0))
         (initialStore env0) st2
    /\ run (processCommand env0 "add foo" (features (initialStore env0))
           (storeActions env0 (initialStore env0))) (initialStore env0)
       = inr (mkResult false msg, initialStore env0).
Proof.
  destruct (add_command_creates env0 "add foo|bar|baz" "add" ["foo|bar|baz"]
              (initialStore env0) eq_refl eq_refl) as [_ Hthree].
  destruct (Hthree "foo" "bar" ["baz"] eq_refl) as (st1 & Hrun1 & Happ1);
    [discriminate | discriminate |].
  destruct (add_command_creates env0 "ADD  foo | bar" "ADD" ["foo"; "|"; "bar"]
              (initialStore env0) eq_refl eq_refl) as [_ Htwo].
  destruct (Htwo "foo" "bar" [] eq_refl) as (st2 & Hrun2 & Happ2);
    [discriminate | discriminate |].
  destruct (add_command_creates env0 "add foo" "add" ["foo"]
              (initialStore env0) eq_refl eq_refl) as [Hone _].
  destruct Hone as (msg & Hrun3); [left; cbn; apply Nat.lt_succ_diag_r |].
  exists st1, st2, msg. repeat split; assumption || apply Happ1 || apply Happ2.
Defined.

Lemma processCommand_never_throws_witness :
  exists r,
    run (processCommand env0 "enable nope" (features (initialStore env0))
           (storeActions env0 (initialStore env0))) (initialStore env0)
    = inr (r, initialStore env0)
    /\ success r = false
    /\ run (processCommand env0 "enable nope" (features (initialStore env0))
              (Actions.mk (fun _ => raise (Error "called"))
                          (fun _ _ _ => raise (Error "called"))
                          (fun _ => raise (Error "called"))
                          (raise (Error "called")) (raise (Error "called"))
                          (fun _ _ => raise (Error "called")) ""))
           storeAtCap
       = inr (r, storeAtCap).
Proof.
  destruct processCommand_never_throws as [Hreturns Hpure].
  exists (mkResult false "Feature not found: nope").
  destruct (Hpure env0 "enable nope" (features (initialStore env0))
              (storeActions env0 (initialStore env0)) (initialStore env0)
              (mkResult false "Feature not found: nope") (initialStore env0)
              eq_refl eq_refl) as [_ Hany].
  split; [reflexivity |]. split; [reflexivity |].
  apply Hany. reflexivity.
Defined.

Ltac not_in_list :=
  vm_compute; let H := fresh in
  intros H; repeat (destruct H as [H | H]; [discriminate H |]); exact H.

(** ** The caller *)

(** [runCommand] on a failed command: the store changes by the log entry
    alone, of type [error]. *)
Lemma runCommand_failure_logs e eLog input st r st1 :
  JS.trim input <> "" ->
  run (processCommand e (JS.trim input) (features st) (storeActions e st)) st
  = inr (r, st1) ->
  success r = false ->
  run (runCommand e eLog input) st
  = run (addCommandLog eLog (JS.trim input) (message r) CommandLog.error) st.
Proof.
  intros Hne Hrun Hfail.
  destruct (processCommand_failure_pure _ _ _ _ _ _ _ Hrun Hfail) as [-> _].
  unfold runCommand. rewrite run_bind.
  change (run get st) with (inr (A := exn) (st, st)). cbv iota beta.
  rewrite (truthy_nonempty _ Hne). cbn [negb].
  rewrite run_bind, Hrun, Hfail. reflexivity.
Qed.

Example runCommand_unknown_verb :
  exists st1,
    run (runCommand env0 env1 "  frobnicate now ") (initialStore env0) = inr (tt, st1)
    /\ features st1 = features (initialStore env0)
    /\ map CommandLog.type_ (commandLogs st1) = [CommandLog.error]
    /\ map CommandLog.command (commandLogs st1) = ["frobnicate now"].
Proof. eexists. split; [reflexivity |]. repeat split. Qed.

(** * Further properties *)

(** ** [trim] *)

Lemma trimStart_no_leading s : startsWithWs (JS.trimStart s) = false.
Proof.
  induction s as [| c r IH]; [reflexivity |].
  cbn [JS.trimStart]. destruct (JS.isWhiteSpace c) eqn:Hc; [exact IH | cbn; exact Hc].
Qed.

Lemma trimStart_fixed s : startsWithWs s = false -> JS.trimStart s = s.
Proof. destruct s as [| c r]; [reflexivity |]. cbn. intros ->. reflexivity. Qed.

Lemma trimEnd_keeps_head s :
  startsWithWs s = false -> startsWithWs (JS.trimEnd s) = false.
Proof.
  destruct s as [| c r]; [reflexivity |]. cbn [startsWithWs JS.trimEnd]. intros Hc.
  destruct (JS.trimEnd r); [rewrite Hc |]; cbn; exact Hc.
Qed.

Lemma trimEnd_fixed s : endsWithWs s = false -> JS.trimEnd s = s.
Proof.
  induction s as [| c r IH]; [reflexivity |]. intros Hend.
  destruct (string_dec r "") as [-> | Hr].
  - cbn in Hend |- *. rewrite Hend. reflexivity.
  - rewrite (endsWithWs_cons c r Hr) in Hend.
    cbn [JS.trimEnd]. rewrite (IH Hend).
    destruct r; [contradiction | reflexivity].
Qed.

Lemma trim_no_leading s : startsWithWs (JS.trim s) = false.
Proof. apply trimEnd_keeps_head, trimStart_no_leading. Qed.

Lemma trim_no_trailing s : endsWithWs (JS.trim s) = false.
Proof. apply trimEnd_no_trailing. Qed.

Lemma trim_idempotent s : JS.trim (JS.trim s) = JS.trim s.
Proof.
  unfold JS.trim at 1. rewrite (trimStart_fixed _ (trim_no_leading s)).
  apply trimEnd_fixed, trim_no_trailing.
Qed.

(** X16. The interpreter trims its input itself: handing it a line already trimmed,
    as [runCommand] does, or the raw line gives the same computation. *)
Theorem processCommand_trims e input fs actions :
  processCommand e (JS.trim input) fs actions = processCommand e input fs actions.
Proof. unfold processCommand. rewrite trim_idempotent. reflexivity. Qed.

(** ** [uid]: the text of the clock *)

Lemma toString36From_push fuel :
  forall n acc, JS.toString36From fuel n acc = pushDigits (lsd36 fuel n) acc.
Proof.
  induction fuel as [| fuel IH]; intros n acc; [reflexivity |].
  cbn [JS.toString36From lsd36]. destruct (n =? 0)%N; [reflexivity |].
  cbn [pushDigits]. apply IH.
Qed.

Lemma list_of_pushDigits ds :
  forall acc,
    list_ascii_of_string (pushDigits ds acc)
    = (rev (map JS.digit36 ds) ++ list_ascii_of_string acc)%list.
Proof.
  induction ds as [| d rest IH]; intros acc; [reflexivity |].
  cbn [pushDigits map rev]. rewrite IH, <- app_assoc. reflexivity.
Qed.

Lemma digitVal_digit36 d : (d < 36)%N -> digitVal (JS.digit36 d) = d.
Proof.
  intros Hd. unfold digitVal, JS.digit36.
  destruct (N.ltb_spec d 10) as [Hlt | Hge]; cbv zeta;
    rewrite N_ascii_embedding by lia.
  - destruct (N.ltb_spec (48 + d) 58); lia.
  - destruct (N.ltb_spec (87 + d) 58); lia.
Qed.

Lemma lsd36_digits fuel : forall n, Forall (fun d => (d < 36)%N) (lsd36 fuel n).
Proof.
  induction fuel as [| fuel IH]; intros n; [constructor |].
  cbn [lsd36]. destruct (n =? 0)%N; [constructor |].
  constructor; [apply N.mod_lt; discriminate | apply IH].
Qed.

Lemma pos_below_pow2_size p : (N.pos p < 2 ^ N.of_nat (Pos.size_nat p))%N.
Proof.
  induction p as [p IH | p IH |]; cbn [Pos.size_nat];
    rewrite Nnat.Nat2N.inj_succ, N.pow_succ_r'.
  - replace (N.pos p~1) with (2 * N.pos p + 1)%N by reflexivity. lia.
  - replace (N.pos p~0) with (2 * N.pos p)%N by reflexivity. lia.
  - cbn. lia.
Qed.

Lemma below_pow2_size n : (n < 2 ^ N.of_nat (N.size_nat n))%N.
Proof. destruct n as [| p]; [cbn; lia | apply pos_below_pow2_size]. Qed.

Lemma eval36_lsd36 fuel :
  forall n, (n < 2 ^ N.of_nat fuel)%N -> eval36 (lsd36 fuel n) = n.
Proof.
  induction fuel as [| fuel IH]; intros n Hn.
  - cbn in Hn. cbn. lia.
  - cbn [lsd36]. destruct (N.eqb_spec n 0) as [-> | Hne]; [reflexivity |].
    cbn [eval36]. rewrite IH.
    + pose proof (N.div_mod n 36). lia.
    + rewrite Nnat.Nat2N.inj_succ, N.pow_succ_r' in Hn.
      apply N.Div0.div_lt_upper_bound. lia.
Qed.

Lemma map_digitVal_digit36 ds :
  Forall (fun d => (d < 36)%N) ds -> map digitVal (map JS.digit36 ds) = ds.
Proof.
  induction 1 as [| d rest Hd _ IH]; [reflexivity |].
  cbn [map]. rewrite (digitVal_digit36 d Hd), IH. reflexivity.
Qed.

(** The text of [Date.now()] in base 36 reads back as the number. *)
Lemma decode36_toString36 n : decode36 (JS.toString36 n) = n.
Proof.
  unfold JS.toString36. destruct (N.eqb_spec n 0) as [-> | Hne]; [reflexivity |].
  unfold decode36. rewrite toString36From_push, list_of_pushDigits.
  cbn [list_ascii_of_string]. rewrite app_nil_r, rev_involutive.
  rewrite map_digitVal_digit36 by apply lsd36_digits.
  apply eval36_lsd36, below_pow2_size.
Qed.

Lemma length_string_append a b :
  String.length (a ++ b) = String.length a + String.length b.
Proof. induction a as [| c a IH]; [reflexivity |]. cbn. rewrite IH. reflexivity. Qed.

Lemma append_split_by_tail a1 :
  forall a2 b1 b2,
    (a1 ++ b1 = a2 ++ b2)%string ->
    String.length b1 = String.length b2 ->
    a1 = a2 /\ b1 = b2.
Proof.
  induction a1 as [| c a1 IH]; intros a2 b1 b2 Heq Hlen.
  - destruct a2 as [| c2 a2]; [split; [reflexivity | exact Heq] |].
    cbn in Heq. subst b1. cbn in Hlen. rewrite length_string_append in Hlen. lia.
  - destruct a2 as [| c2 a2].
    + cbn in Heq. subst b2. cbn in Hlen. rewrite length_string_append in Hlen. lia.
    + cbn in Heq. injection Heq as -> Heq.
      destruct (IH a2 b1 b2 Heq Hlen) as [-> ->]. split; reflexivity.
Qed.

Lemma length_pushDigits ds :
  forall acc, String.length (pushDigits ds acc) = length ds + String.length acc.
Proof.
  induction ds as [| d rest IH]; intros acc; [reflexivity |].
  cbn [pushDigits length]. rewrite IH. cbn. lia.
Qed.

Lemma lsd36_zero fuel : lsd36 fuel 0 = [].
Proof. destruct fuel; reflexivity. Qed.

Lemma length_lsd36 k :
  forall fuel n,
    (36 ^ N.of_nat k <= n < 36 ^ N.of_nat (S k))%N ->
    (n < 2 ^ N.of_nat fuel)%N ->
    length (lsd36 fuel n) = S k.
Proof.
  induction k as [| k IH]; intros fuel n [Hlo Hhi] Hfuel.
  - cbn in Hlo, Hhi. destruct fuel as [| fuel]; [cbn in Hfuel; lia |].
    cbn [lsd36]. destruct (N.eqb_spec n 0); [lia |].
    rewrite (N.div_small n 36 Hhi), lsd36_zero. reflexivity.
  - rewrite !Nnat.Nat2N.inj_succ, !N.pow_succ_r' in *.
    destruct fuel as [| fuel]; [cbn in Hfuel; lia |].
    rewrite Nnat.Nat2N.inj_succ, N.pow_succ_r' in Hfuel.
    assert (0 < 36 ^ N.of_nat k)%N as Hpos
      by (pose proof (N.pow_nonzero 36 (N.of_nat k)); lia).
    cbn [lsd36]. destruct (N.eqb_spec n 0); [lia |].
    cbn [length]. f_equal. apply IH.
    + split.
      * apply N.div_le_lower_bound; lia.
      * apply N.Div0.div_lt_upper_bound. lia.
    + apply N.Div0.div_lt_upper_bound. lia.
Qed.

Lemma length_toString36 k n :
  (36 ^ N.of_nat k <= n < 36 ^ N.of_nat (S k))%N ->
  String.length (JS.toString36 n) = S k.
Proof.
  intros Hn. unfold JS.toString36.
  assert (0 < 36 ^ N.of_nat k)%N as Hpos
      by (pose proof (N.pow_nonzero 36 (N.of_nat k)); lia).
  destruct (N.eqb_spec n 0); [lia |].
  rewrite toString36From_push, length_pushDigits. cbn [String.length].
  rewrite (length_lsd36 k _ n Hn (below_pow2_size n)). lia.
Qed.

(** X1. Two ids made by [uid()] at different milliseconds differ, for clock
    readings from 36^7 up to 36^8 - 1 (1972-06-26 to 2059-05-25), where the
    base-36 text of the clock has eight characters: equal ids force equal
    clock readings and equal random parts. *)
Theorem uid_separates_times (e1 e2 : Env) :
  (78364164096 <= dateNow e1 < 2821109907456)%N ->
  (78364164096 <= dateNow e2 < 2821109907456)%N ->
  uid e1 = uid e2 ->
  dateNow e1 = dateNow e2
  /\ JS.sliceFrom 2 (mathRandom36 e1) = JS.sliceFrom 2 (mathRandom36 e2).
Proof.
  intros H1 H2 Heq. unfold uid in Heq.
  apply append_split_by_tail in Heq as [Hrand Htime].
  - split; [| exact Hrand].
    rewrite <- (decode36_toString36 (dateNow e1)), Htime. apply decode36_toString36.
  - rewrite (length_toString36 7 (dateNow e1)), (length_toString36 7 (dateNow e2));
      [reflexivity | exact H2 | exact H1].
Qed.

Lemma uid_separates_times_witness :
  uid env0 <> uid env1.
Proof.
  intros Heq.
  destruct (uid_separates_times env0 env1) as [Htime _];
    [split; [discriminate | reflexivity] | split; [discriminate | reflexivity] | exact Heq |].
  discriminate Htime.
Defined.

(** ** The store: how the operations compose *)

Lemma ids_map_flipIf id fs : ids (map (flipIf id) fs) = ids fs.
Proof.
  unfold ids. rewrite map_map. apply map_ext. intros f. unfold flipIf.
  destruct (Feature.id f =? id)%string; reflexivity.
Qed.

Lemma ids_filter_other id fs :
  ids (filter (fun f => negb (Feature.id f =? id)%string) fs)
  = filter (fun i => negb (i =? id)%string) (ids fs).
Proof.
  unfold ids. induction fs as [| f fs IH]; [reflexivity |].
  cbn [filter map]. destruct (Feature.id f =? id)%string; cbn [negb map];
    rewrite IH; reflexivity.
Qed.

Lemma NoDup_filter {A} (p : A -> bool) (l : list A) : NoDup l -> NoDup (filter p l).
Proof.
  induction 1 as [| a l Hnotin _ IH]; [constructor |].
  cbn. destruct (p a); [| exact IH].
  constructor; [| exact IH]. intros Hin. apply Hnotin.
  apply filter_In in Hin. apply Hin.
Qed.

(** X4. [toggleFeature] leaves the ids of the list and their order as they
    are; [removeFeature id] keeps the ids other than [id], in order, and
    leaves no feature with that id.  So a list with pairwise distinct ids
    keeps pairwise distinct ids under both. *)
Theorem toggle_remove_keep_ids (id : string) (st : Store) :
  exists st1 st2,
    run (toggleFeature id) st = inr (tt, st1)
    /\ run (removeFeature id) st = inr (tt, st2)
    /\ ids (features st1) = ids (features st)
    /\ ids (features st2) = filter (fun i => negb (i =? id)%string) (ids (features st))
    /\ ~ In id (ids (features st2))
    /\ (NoDup (ids (features st)) ->
        NoDup (ids (features st1)) /\ NoDup (ids (features st2))).
Proof.
  do 2 eexists. split; [apply run_setFeatures |]. split; [apply run_setFeatures |].
  cbn [features].
  change (map _ (features st)) with (map (flipIf id) (features st)).
  rewrite ids_map_flipIf.
  rewrite (ids_filter_other id (features st)).
  split; [reflexivity |]. split; [reflexivity |]. split.
  - intros Hin. apply filter_In in Hin as [_ Hne].
    rewrite String.eqb_refl in Hne. discriminate.
  - intros Hnd. split; [exact Hnd | apply NoDup_filter, Hnd].
Qed.

Lemma toggle_remove_keep_ids_witness :
  exists st1 st2,
    run (toggleFeature "f002") (initialStore env0) = inr (tt, st1)
    /\ run (removeFeature "f002") (initialStore env0) = inr (tt, st2)
    /\ NoDup (ids (features st1)) /\ NoDup (ids (features st2)).
Proof.
  destruct (toggle_remove_keep_ids "f002" (initialStore env0))
    as (st1 & st2 & Hrun1 & Hrun2 & _ & _ & _ & Hnd).
  exists st1, st2. split; [exact Hrun1 |]. split; [exact Hrun2 |].
  apply Hnd. repeat (apply NoDup_cons; [not_in_list |]). apply NoDup_nil.
Defined.

Lemma filter_map_flipIf a b fs :
  filter (fun f => negb (Feature.id f =? a)%string) (map (flipIf b) fs)
  = map (flipIf b) (filter (fun f => negb (Feature.id f =? a)%string) fs).
Proof.
  induction fs as [| f fs IH]; [reflexivity |].
  cbn [map filter].
  replace (Feature.id (flipIf b f)) with (Feature.id f)
    by (unfold flipIf; destruct (Feature.id f =? b)%string; reflexivity).
  destruct (Feature.id f =? a)%string; cbn [negb map]; rewrite IH; reflexivity.
Qed.

(** X5. [removeFeature a] and [toggleFeature b] commute, for all ids [a] and
    [b]: either order leaves the same store. *)
Theorem remove_toggle_commute (a b : string) (st : Store) :
  run (removeFeature a ;; toggleFeature b) st
  = run (toggleFeature b ;; removeFeature a) st.
Proof.
  rewrite !run_bind. unfold removeFeature, toggleFeature. rewrite !run_setFeatures.
  cbn [features gpsLogs photoLogs commandLogs emailQueue emailAddress isOnline].
  change (fun f : Feature.t => if (Feature.id f =? b)%string
            then Feature.withEnabled f (negb (Feature.enabled f)) else f)
    with (flipIf b).
  rewrite filter_map_flipIf. reflexivity.
Qed.

(** ** The logs: sequences of appends *)

Lemma firstn_app_firstn {A} (pre : list A) :
  forall m k l, m <= k -> firstn m (pre ++ firstn k l) = firstn m (pre ++ l).
Proof.
  induction pre as [| p pre IH]; intros m k l Hmk.
  - cbn [app]. rewrite firstn_firstn. f_equal. lia.
  - destruct m as [| m]; [reflexivity |].
    cbn [app firstn]. f_equal. apply IH. lia.
Qed.

Lemma firstn_within {A} n (l : list A) : length l <= n -> firstn n l = l.
Proof. apply firstn_all2. Qed.

Lemma run_addGPSLog e log st :
  run (addGPSLog e log) st =
  inr (tt, mkStore (features st)
             (firstn 200 (GPSLog.mk (uid e) (r_lat log) (r_lng log) (r_accuracy log)
                                    (dateISO e) :: gpsLogs st))
             (photoLogs st) (commandLogs st) (emailQueue st) (emailAddress st)
             (isOnline st)).
Proof. reflexivity. Qed.

Lemma run_addPhotoLog e uri st :
  run (addPhotoLog e uri) st =
  inr (tt, mkStore (features st) (gpsLogs st)
             (firstn 100 (PhotoLog.mk (uid e) uri (dateISO e) :: photoLogs st))
             (commandLogs st) (emailQueue st) (emailAddress st) (isOnline st)).
Proof. reflexivity. Qed.

Lemma run_addCommandLog e command result ty st :
  run (addCommandLog e command result ty) st =
  inr (tt, mkStore (features st) (gpsLogs st) (photoLogs st)
             (firstn 500 (CommandLog.mk (uid e) command result (dateISO e) ty
                          :: commandLogs st))
             (emailQueue st) (emailAddress st) (isOnline st)).
Proof. reflexivity. Qed.

(** X6. After any sequence of appends, run from a store within the caps, each
    log is the entries made for it, newest first, followed by the old log,
    cut after the cap (200, 100, 500); the appends touch nothing else. *)
Theorem appendAll_newest_first (calls : list Append) :
  forall st, withinCaps st ->
  exists st1,
    run (appendAll calls) st = inr (tt, st1)
    /\ gpsLogs st1 = firstn 200 (rev (gpsEntries calls) ++ gpsLogs st)%list
    /\ photoLogs st1 = firstn 100 (rev (photoEntries calls) ++ photoLogs st)%list
    /\ commandLogs st1 = firstn 500 (rev (commandEntries calls) ++ commandLogs st)%list
    /\ (features st1, emailQueue st1, emailAddress st1, isOnline st1)
       = (features st, emailQueue st, emailAddress st, isOnline st).
Proof.
  induction calls as [| a rest IH]; intros st Hst.
  - exists st. split; [reflexivity |]. destruct Hst as (Hg & Hp & Hc). cbn [gpsEntries
      photoEntries commandEntries rev app].
    rewrite !firstn_within by assumption. repeat split.
  - destruct (run_append_withinCaps a st Hst) as (st1 & Hrun & Hst1).
    destruct (IH st1 Hst1) as (st2 & Hrest & Hg & Hp & Hc & Hframe).
    exists st2. split; [cbn [appendAll]; rewrite run_bind, Hrun; exact Hrest |].
    rewrite Hg, Hp, Hc, Hframe. clear Hg Hp Hc Hframe Hrest IH.
    destruct Hst as (Hg & Hp & Hc).
    destruct a; cbn [append] in Hrun;
      rewrite ?run_addGPSLog, ?run_addPhotoLog, ?run_addCommandLog in Hrun;
      apply (f_equal (fun r => match r with inr (_, s) => s | inl _ => st end)) in Hrun;
      cbv beta iota in Hrun; subst st1;
      cbn [gpsLogs photoLogs commandLogs features emailQueue emailAddress isOnline
           gpsEntries photoEntries commandEntries rev];
      rewrite <- ?app_assoc; cbn [app];
      rewrite ?firstn_app_firstn by apply Nat.le_refl;
      repeat split.
Qed.

Lemma appendAll_newest_first_witness :
  exists st1,
    run (appendAll [AppendGPS env0 gps0; AppendPhoto env0 "file:///a.jpg";
                    AppendGPS env1 gps0]) (initialStore env0) = inr (tt, st1)
    /\ map GPSLog.id (gpsLogs st1) = [uid env1; uid env0]
    /\ map PhotoLog.uri (photoLogs st1) = ["file:///a.jpg"].
Proof.
  destruct (appendAll_newest_first
              [AppendGPS env0 gps0; AppendPhoto env0 "file:///a.jpg"; AppendGPS env1 gps0]
              (initialStore env0)) as (st1 & Hrun & Hg & Hp & _).
  { repeat split; apply Nat.le_0_l. }
  exists st1. split; [exact Hrun |]. rewrite Hg, Hp. split; reflexivity.
Defined.

Lemma run_enqueueAll (calls : list EnqueueCall) :
  forall st,
    run (enqueueAll calls) st =
    inr (tt, mkStore (features st) (gpsLogs st) (photoLogs st) (commandLogs st)
               (emailQueue st ++ map queuedItem calls)%list (emailAddress st)
               (isOnline st)).
Proof.
  induction calls as [| c rest IH]; intros st.
  - cbn [enqueueAll map]. rewrite app_nil_r, Store_eta. reflexivity.
  - cbn [enqueueAll]. rewrite run_bind.
    change (run (addEmailQueue (enqueueEnv c) (enqueueSubject c) (enqueueBody c)) st)
      with (inr (A := exn)
              (tt, mkStore (features st) (gpsLogs st) (photoLogs st) (commandLogs st)
                     (emailQueue st ++ [queuedItem c])%list (emailAddress st)
                     (isOnline st))).
    cbv beta iota. rewrite IH.
    cbn [features gpsLogs photoLogs commandLogs emailQueue emailAddress isOnline map].
    rewrite <- app_assoc. reflexivity.
Qed.

(** X7. The e-mail queue has no cap and keeps its order: any sequence of
    [addEmailQueue] calls returns normally, the queue is then the old items
    followed by one item per call, in call order, each with [sent = false],
    so it is longer by the number of calls; nothing else changes. *)
Theorem enqueueAll_grows (calls : list EnqueueCall) (st : Store) :
  exists st1,
    run (enqueueAll calls) st = inr (tt, st1)
    /\ emailQueue st1 = (emailQueue st ++ map queuedItem calls)%list
    /\ length (emailQueue st1) = length (emailQueue st) + length calls
    /\ Forall (fun item => EmailQueue.sent item = false) (map queuedItem calls)
    /\ (features st1, gpsLogs st1, photoLogs st1, commandLogs st1, emailAddress st1,
        isOnline st1)
       = (features st, gpsLogs st, photoLogs st, commandLogs st, emailAddress st,
          isOnline st).
Proof.
  eexists. split; [apply run_enqueueAll |].
  cbn [features gpsLogs photoLogs commandLogs emailQueue emailAddress isOnline].
  split; [reflexivity |]. split; [rewrite length_app, length_map; reflexivity |].
  split; [| reflexivity].
  apply Forall_forall. intros item Hin. apply in_map_iff in Hin as (c & <- & _).
  reflexivity.
Qed.

(** ** The interpreter: the other verbs *)

(** X8. One invocation calls at most one closure of [actions], and only when
    it reports success: the computation is either a plain return of the
    result, or one call followed by the return of a successful result. *)
Theorem processCommand_one_call e input fs actions :
  exists r,
    processCommand e input fs actions = ret r
    \/ (exists c, processCommand e input fs actions = (invoke actions c ;; ret r)
                  /\ success r = true).
Proof.
  unfold processCommand. cbv zeta.
  case_tests; unfold ok, failed;
    first
      [ eexists; left; reflexivity
      | eexists; right;
        match goal with
        | |- context [Actions.toggleFeature _ ?x] => exists (ToggleFeature x)
        | |- context [Actions.addFeature _ ?a ?b ?c] => exists (AddFeature a b c)
        | |- context [Actions.removeFeature _ ?x] => exists (RemoveFeature x)
        | |- context [Actions.clearCommandLogs _] => exists ClearCommandLogs
        | |- context [Actions.clearGPSLogs _] => exists ClearGPSLogs
        | |- context [Actions.addEmailQueue _ ?a ?b] => exists (AddEmailQueue a b)
        end; split; reflexivity ].
Qed.

(** X9. With the operations of the store, a command never changes the photo
    log, the e-mail address or the connectivity flag, and of the features,
    the GPS log, the command log and the e-mail queue it changes at most
    one. *)
Theorem processCommand_frame e input fs st r st1 :
  run (processCommand e input fs (storeActions e st)) st = inr (r, st1) ->
  (photoLogs st1, emailAddress st1, isOnline st1)
  = (photoLogs st, emailAddress st, isOnline st)
  /\ ((gpsLogs st1, commandLogs st1, emailQueue st1)
      = (gpsLogs st, commandLogs st, emailQueue st)
      \/ (features st1, commandLogs st1, emailQueue st1)
         = (features st, commandLogs st, emailQueue st)
      \/ (features st1, gpsLogs st1, emailQueue st1)
         = (features st, gpsLogs st, emailQueue st)
      \/ (features st1, gpsLogs st1, commandLogs st1)
         = (features st, gpsLogs st, commandLogs st)).
Proof.
  unfold processCommand. cbv zeta.
  case_tests; rewrite ?run_ok, ?run_failed, ?run_then_ok;
    cbn [storeActions Actions.toggleFeature Actions.addFeature Actions.removeFeature
         Actions.clearCommandLogs Actions.clearGPSLogs Actions.addEmailQueue];
    intros Hrun;
    apply (f_equal (fun x => match x with inr (_, s) => s | inl _ => st end)) in Hrun;
    cbn in Hrun; subst st1; (split; [reflexivity |]);
    first [ left; reflexivity | right; left; reflexivity
          | right; right; left; reflexivity | right; right; right; reflexivity ].
Qed.

Lemma processCommand_frame_witness :
  exists st1,
    run (processCommand env0 "remove f004" (features (initialStore env0))
           (storeActions env0 (initialStore env0))) (initialStore env0)
    = inr (mkResult true "Removed: Dark Mode", st1)
    /\ (photoLogs st1, emailAddress st1, isOnline st1) = ([], "", true).
Proof.
  eexists. split; [reflexivity |].
  apply (processCommand_frame env0 "remove f004" (features (initialStore env0))
           (initialStore env0) (mkResult true "Removed: Dark Mode") _ eq_refl).
Defined.

(** X10. On a line whose verb is [remove]: without a further token the command
    fails; otherwise the feature is looked up by exact id on the first token
    alone (names are not tried, later tokens are ignored).  When no feature
    has that id the command fails; in both failures no closure is called.
    Otherwise, with the operations of the store, the features with that id
    are removed and nothing else changes. *)
Theorem remove_by_exact_id (e : Env) (input verb : string) (args : list string)
    (st : Store) :
  JS.splitWs (JS.trim input) = verb :: args ->
  JS.toLowerCase verb = "remove" ->
  let call := processCommand e input (features st) in
  match args with
  | [] =>
      forall actions st',
        run (call actions) st' = inr (mkResult false "Usage: remove <feature-id>", st')
  | a0 :: _ =>
      match find (fun x => (Feature.id x =? a0)%string) (features st) with
      | None =>
          forall actions st',
            run (call actions) st'
            = inr (mkResult false ("Feature not found: " ++ a0), st')
      | Some f =>
          exists st1,
            run (call (storeActions e st)) st
            = inr (mkResult true ("Removed: " ++ Feature.name f), st1)
            /\ features st1
               = filter (fun x => negb (Feature.id x =? a0)%string) (features st)
            /\ besideFeatures st1 = besideFeatures st
      end
  end.
Proof.
  intros Hparts Hverb call. subst call.
  pose proof (args_nonempty _ _ _ Hparts) as Hargs.
  destruct args as [| a0 rest].
  - intros actions st'. dispatch Hparts Hverb. reflexivity.
  - apply Forall_inv in Hargs. apply truthy_nonempty in Hargs.
    destruct (find (fun x => (Feature.id x =? a0)%string) (features st)) as [f |] eqn:Hfind.
    + dispatch Hparts Hverb. cbn [falsy text nth_error]. rewrite Hargs. cbn [negb].
      rewrite Hfind. apply find_some in Hfind as [_ Hid].
      apply String.eqb_eq in Hid. rewrite Hid.
      eexists. split; [reflexivity |]. split; reflexivity.
    + intros actions st'. dispatch Hparts Hverb.
      cbn [falsy text nth_error]. rewrite Hargs. cbn [negb]. rewrite Hfind. reflexivity.
Qed.

Lemma remove_by_exact_id_witness :
  (exists st1,
     run (processCommand env0 "Remove f004 now" (features (initialStore env0))
            (storeActions env0 (initialStore env0))) (initialStore env0)
     = inr (mkResult true "Removed: Dark Mode", st1)
     /\ length (features st1) = 9)
  /\ run (processCommand env0 "remove Dark Mode" (features (initialStore env0))
            (storeActions env0 (initialStore env0))) (initialStore env0)
     = inr (mkResult false "Feature not found: Dark", initialStore env0).
Proof.
  split.
  - destruct (remove_by_exact_id env0 "Remove f004 now" "Remove" ["f004"; "now"]
                (initialStore env0) eq_refl eq_refl) as (st1 & Hrun & Hfs & _).
    exists st1. split; [exact Hrun | rewrite Hfs; reflexivity].
  - apply (remove_by_exact_id env0 "remove Dark Mode" "remove" ["Dark"; "Mode"]
             (initialStore env0) eq_refl eq_refl).
Defined.

(** X11. The verbs [help], [list], [status] and [version] always succeed and
    call no closure: whatever the closures and the store, the store comes
    back as it was. *)
Theorem read_only_verbs (e : Env) (input verb : string) (args : list string)
    (fs : list Feature.t) (actions : Actions.t) (st : Store) :
  JS.splitWs (JS.trim input) = verb :: args ->
  In (JS.toLowerCase verb) ["help"; "list"; "status"; "version"] ->
  exists msg, run (processCommand e input fs actions) st = inr (mkResult true msg, st).
Proof.
  intros Hparts Hverb.
  destruct Hverb as [Hv | [Hv | [Hv | [Hv | []]]]]; symmetry in Hv;
    dispatch Hparts Hv; case_tests; eexists; reflexivity.
Qed.

Lemma read_only_verbs_witness :
  exists msg,
    run (processCommand env0 " STATUS " (DEFAULT_FEATURES env0)
           (Actions.mk (fun _ => raise (Error "called"))
                       (fun _ _ _ => raise (Error "called"))
                       (fun _ => raise (Error "called"))
                       (raise (Error "called")) (raise (Error "called"))
                       (fun _ _ => raise (Error "called")) "a@b.com"))
        storeAtCap
    = inr (mkResult true msg, storeAtCap).
Proof.
  apply (read_only_verbs env0 " STATUS " "STATUS" []); [reflexivity |].
  right. right. left. reflexivity.
Defined.

Lemma isCase_other v label : v <> label -> isCase (Some v) label = false.
Proof. intros Hne. cbn. apply String.eqb_neq. exact Hne. Qed.

(** X12. A verb that, lower-cased, is none of the eleven verbs and not empty
    makes the command fail with the "Unknown command" message that quotes the
    lower-cased verb; no closure is called. *)
Theorem unknown_verb_fails (e : Env) (input verb : string) (args : list string)
    (fs : list Feature.t) (actions : Actions.t) (st : Store) :
  JS.splitWs (JS.trim input) = verb :: args ->
  ~ In (JS.toLowerCase verb) ("" :: verbs) ->
  run (processCommand e input fs actions) st
  = inr (mkResult false
           ("Unknown command: '" ++ JS.toLowerCase verb
            ++ "'. Type 'help' for available commands."), st).
Proof.
  intros Hparts Hnot.
  unfold processCommand. cbv zeta. rewrite Hparts. cbn [nth_error option_map].
  rewrite !isCase_other; [reflexivity | ..];
    intros Heq; apply Hnot; rewrite Heq; cbn; tauto.
Qed.

Lemma unknown_verb_fails_witness :
  run (processCommand env0 "Frobnicate f001" (DEFAULT_FEATURES env0)
         (storeActions env0 (initialStore env0))) (initialStore env0)
  = inr (mkResult false
           "Unknown command: 'frobnicate'. Type 'help' for available commands.",
         initialStore env0).
Proof.
  apply (unknown_verb_fails env0 "Frobnicate f001" "Frobnicate" ["f001"]);
    [reflexivity | not_in_list].
Defined.

Lemma run_runCommand e eLog input st :
  run (runCommand e eLog input) st =
  if negb (JS.truthy (JS.trim input)) then inr (tt, st)
  else
    match run (processCommand e (JS.trim input) (features st) (storeActions e st)) st with
    | inl err => inl err
    | inr (result, st1) =>
        run (addCommandLog eLog (JS.trim input) (message result)
               (if success result then CommandLog.success else CommandLog.error)) st1
    end.
Proof.
  unfold runCommand. rewrite run_bind.
  change (run get st) with (inr (A := exn) (st, st)). cbv iota beta.
  destruct (negb (JS.truthy (JS.trim input))); [reflexivity |].
  rewrite run_bind. reflexivity.
Qed.

(** X13. A blank line: the interpreter itself answers with the failure "No
    command entered", calling no closure; [runCommand] does not get that far,
    it returns at once and leaves the store, the command log included, as it
    was. *)
Theorem blank_line (e eLog : Env) (input : string) (fs : list Feature.t)
    (actions : Actions.t) (st : Store) :
  JS.trim input = "" ->
  run (processCommand e input fs actions) st
  = inr (mkResult false "No command entered. Type 'help' for options.", st)
  /\ run (runCommand e eLog input) st = inr (tt, st).
Proof.
  intros Hblank. split.
  - unfold processCommand. cbv zeta. rewrite Hblank. reflexivity.
  - rewrite run_runCommand, Hblank. reflexivity.
Qed.

Lemma blank_line_witness :
  run (runCommand env0 env1 "   ") (initialStore env0) = inr (tt, initialStore env0).
Proof.
  apply (blank_line env0 env1 "   " [] (storeActions env0 (initialStore env0))
           (initialStore env0) eq_refl).
Defined.

(** ** The caller: one log entry per command *)

(** X14. On a line that is not blank, [runCommand] never throws and writes
    exactly one log entry: the store is the one the command left, with one
    entry put in front of its command log (cut after 500) that carries the
    trimmed line, the message of the result, and the type [success] or
    [error] after the [success] flag. *)
Theorem runCommand_logs_once (e eLog : Env) (input : string) (st : Store) :
  JS.trim input <> "" ->
  exists r st1,
    run (processCommand e (JS.trim input) (features st) (storeActions e st)) st
    = inr (r, st1)
    /\ run (runCommand e eLog input) st
       = inr (tt, mkStore (features st1) (gpsLogs st1) (photoLogs st1)
                    (firstn 500
                       (CommandLog.mk (uid eLog) (JS.trim input) (message r)
                          (dateISO eLog)
                          (if success r then CommandLog.success else CommandLog.error)
                        :: commandLogs st1))
                    (emailQueue st1) (emailAddress st1) (isOnline st1)).
Proof.
  intros Hne.
  destruct (processCommand_returns e (JS.trim input) (features st) st)
    as (r & st1 & Hrun).
  exists r, st1. split; [exact Hrun |].
  rewrite run_runCommand, (truthy_nonempty _ Hne), Hrun. cbn [negb].
  apply run_addCommandLog.
Qed.

Lemma runCommand_logs_once_witness :
  exists st2,
    run (runCommand env0 env1 " enable nope ") (initialStore env0) = inr (tt, st2)
    /\ map CommandLog.type_ (commandLogs st2) = [CommandLog.error]
    /\ map CommandLog.result (commandLogs st2) = ["Feature not found: nope"]
    /\ features st2 = features (initialStore env0).
Proof.
  destruct (runCommand_logs_once env0 env1 " enable nope " (initialStore env0))
    as (r & st1 & Hcmd & Hrun); [discriminate |].
  apply (f_equal (fun x => match x with
                           | inr p => p
                           | inl _ => (mkResult true "", initialStore env0)
                           end)) in Hcmd.
  cbv beta iota in Hcmd.
  apply (f_equal (fun p => (fst p, snd p))) in Hcmd. cbn [fst snd] in Hcmd.
  injection Hcmd as Hr Hst. subst r st1.
  eexists. split; [exact Hrun |]. repeat split.
Defined.

Lemma verb_line_nonblank input verb args :
  JS.splitWs (JS.trim input) = verb :: args ->
  JS.toLowerCase verb <> "" ->
  JS.trim input <> "".
Proof.
  intros Hparts Hverb Hblank. rewrite Hblank in Hparts.
  injection Hparts as <- _. apply Hverb. reflexivity.
Qed.

(** X15. Clearing through the command line: after [runCommand] on a line whose
    verb is [clear-logs] the command log holds exactly one entry, the record
    of that very command; on a line whose verb is [clear-gps] the GPS log is
    empty and the command log has its new entry in front.  Nothing else
    changes. *)
Theorem clear_commands_logged (e eLog : Env) (input verb : string)
    (args : list string) (st : Store) :
  JS.splitWs (JS.trim input) = verb :: args ->
  (JS.toLowerCase verb = "clear-logs" ->
     run (runCommand e eLog input) st
     = inr (tt, mkStore (features st) (gpsLogs st) (photoLogs st)
                  [CommandLog.mk (uid eLog) (JS.trim input) "Command logs cleared."
                     (dateISO eLog) CommandLog.success]
                  (emailQueue st) (emailAddress st) (isOnline st)))
  /\ (JS.toLowerCase verb = "clear-gps" ->
     run (runCommand e eLog input) st
     = inr (tt, mkStore (features st) [] (photoLogs st)
                  (firstn 500
                     (CommandLog.mk (uid eLog) (JS.trim input) "GPS logs cleared."
                        (dateISO eLog) CommandLog.success :: commandLogs st))
                  (emailQueue st) (emailAddress st) (isOnline st))).
Proof.
  intros Hparts.
  assert (JS.splitWs (JS.trim (JS.trim input)) = verb :: args) as Hparts'
    by (rewrite trim_idempotent; exact Hparts).
  split; intros Hverb;
    (assert (JS.trim input <> "") as Hne
       by (apply (verb_line_nonblank _ _ _ Hparts); rewrite Hverb; discriminate));
    rewrite run_runCommand, (truthy_nonempty _ Hne); cbn [negb];
    dispatch Hparts' Hverb; reflexivity.
Qed.

Lemma clear_commands_logged_witness :
  exists st1 st2,
    run (runCommand env0 env0 "help") (initialStore env0) = inr (tt, st1)
    /\ length (commandLogs st1) = 1
    /\ run (runCommand env1 env1 "Clear-Logs") st1 = inr (tt, st2)
    /\ map CommandLog.command (commandLogs st2) = ["Clear-Logs"].
Proof.
  eexists. eexists. split; [reflexivity |]. split; [reflexivity |].
  split.
  - apply (proj1 (clear_commands_logged env1 env1 "Clear-Logs" "Clear-Logs" [] _
                    eq_refl) eq_refl).
  - reflexivity.
Defined.

(** ** The settings screen: the hidden panel *)

Lemma secretRun_app evs1 evs2 s :
  secretRun (evs1 ++ evs2) s = secretRun evs2 (secretRun evs1 s).
Proof. apply fold_left_app. Qed.

Lemma taps_from (n : nat) :
  forall c b timer,
    c < 7 ->
    let s := secretRun (repeat Tap n) (mkSecret c timer b) in
    tapCount s = (c + n) mod 7
    /\ showAdmin s = xorb b (Nat.odd ((c + n) / 7))
    /\ (0 < n -> (tapTimer s = None <-> (c + n) mod 7 = 0)).
Proof.
  induction n as [| n IH]; intros c b timer Hc; cbv zeta.
  - cbn [repeat secretRun fold_left tapCount showAdmin].
    rewrite Nat.add_0_r, Nat.mod_small, Nat.div_small by exact Hc.
    cbn. rewrite xorb_false_r. repeat split; lia.
  - cbn [repeat secretRun fold_left secretStep]. unfold handleSecretTap.
    cbn [tapCount showAdmin]. unfold SECRET_TAPS.
    destruct (Nat.leb_spec 7 (c + 1)) as [Hge | Hlt].
    + assert (c = 6) as -> by lia.
      destruct (IH 0 (negb b) None) as (Hcount & Hshow & Htimer); [lia |].
      fold (secretRun (repeat Tap n) (mkSecret 0 None (negb b))).
      replace (6 + S n) with (n + 1 * 7) by lia.
      rewrite Nat.Div0.mod_add, Nat.div_add by lia.
      cbn [Nat.add] in Hcount, Hshow, Htimer.
      rewrite Hcount, Hshow. split; [reflexivity |]. split.
      * rewrite Nat.add_1_r, Nat.odd_succ, <- Nat.negb_odd.
        destruct b, (Nat.odd (n / 7)); reflexivity.
      * intros _. destruct n as [| n'].
        -- cbn. split; reflexivity.
        -- apply Htimer. lia.
    + destruct (IH (c + 1) b (Some SECRET_TIMEOUT)) as (Hcount & Hshow & Htimer); [lia |].
      fold (secretRun (repeat Tap n) (mkSecret (c + 1) (Some SECRET_TIMEOUT) b)).
      replace (c + S n) with (c + 1 + n) by lia.
      rewrite Hcount, Hshow. split; [reflexivity |]. split; [reflexivity |].
      intros _. destruct n as [| n'].
      * cbn [repeat secretRun fold_left tapTimer].
        rewrite Nat.add_0_r, Nat.mod_small by lia. split; [discriminate | lia].
      * apply Htimer. lia.
Qed.

(** X19. Taps with no timeout in between: after [n] taps from the start the
    counter is [n mod 7] and the admin panel has been flipped [n / 7] times,
    so it shows exactly when [n / 7] is odd; a timeout is pending exactly
    when the counter is not 0. *)
Theorem secret_taps_count (n : nat) :
  let s := secretRun (repeat Tap n) secretStart in
  tapCount s = n mod SECRET_TAPS
  /\ showAdmin s = Nat.odd (n / SECRET_TAPS)
  /\ (tapTimer s = None <-> n mod SECRET_TAPS = 0).
Proof.
  cbv zeta. unfold SECRET_TAPS.
  destruct (taps_from n 0 false None) as (Hcount & Hshow & Htimer); [lia |].
  cbn [Nat.add xorb] in Hcount, Hshow, Htimer. fold secretStart in Hcount, Hshow, Htimer.
  split; [exact Hcount |]. split; [exact Hshow |].
  destruct n as [| n']; [cbn; split; reflexivity | apply Htimer; lia].
Qed.

Lemma secretStep_inv s ev : secretInv s -> secretInv (secretStep s ev).
Proof.
  unfold secretInv, SECRET_TAPS. intros [Hlt Htimer].
  destruct ev; cbn [secretStep].
  - unfold handleSecretTap, SECRET_TAPS.
    destruct (Nat.leb_spec 7 (tapCount s + 1)); cbn [tapCount tapTimer].
    + split; [lia | split; reflexivity].
    + split; [lia | split; [discriminate | lia]].
  - unfold secretTimeout. destruct (tapTimer s) eqn:Ht; cbn [tapCount tapTimer].
    + split; [lia | split; reflexivity].
    + rewrite Ht. split; [exact Hlt | exact Htimer].
Qed.

(** X20. Whatever the taps and timeouts since the start, the counter stays
    below 7 and a timeout is pending exactly when the counter is not 0. *)
Theorem secret_invariant (evs : list SecretEvent) :
  let s := secretRun evs secretStart in
  tapCount s < SECRET_TAPS /\ (tapTimer s = None <-> tapCount s = 0).
Proof.
  cbv zeta. change (secretInv (secretRun evs secretStart)).
  assert (secretInv secretStart) as Hstart
    by (unfold secretInv, SECRET_TAPS; cbn; split; [lia | split; reflexivity]).
  revert Hstart. generalize secretStart as s.
  induction evs as [| ev evs IH]; intros s Hs; [exact Hs |].
  cbn [secretRun fold_left]. apply IH, secretStep_inv, Hs.
Qed.

Lemma longestTapRun_ge evs : forall cur, cur <= longestTapRun cur evs.
Proof.
  induction evs as [| ev evs IH]; intros cur; [apply Nat.le_refl |].
  destruct ev; cbn [longestTapRun].
  - specialize (IH (S cur)). lia.
  - apply Nat.le_max_l.
Qed.

Lemma secret_locked_from evs :
  forall s cur,
    tapCount s <= cur ->
    (tapTimer s = None -> tapCount s = 0) ->
    longestTapRun cur evs < SECRET_TAPS ->
    showAdmin (secretRun evs s) = showAdmin s.
Proof.
  unfold SECRET_TAPS.
  induction evs as [| ev evs IH]; intros s cur Hcount Htimer Hrun; [reflexivity |].
  cbn [secretRun fold_left]. fold (secretRun evs (secretStep s ev)).
  destruct ev; cbn [longestTapRun secretStep] in *.
  - pose proof (longestTapRun_ge evs (S cur)) as Hge.
    unfold handleSecretTap, SECRET_TAPS.
    destruct (Nat.leb_spec 7 (tapCount s + 1)); [lia |].
    rewrite (IH _ (S cur)); cbn [tapCount tapTimer showAdmin];
      [reflexivity | lia | discriminate | exact Hrun].
  - unfold secretTimeout. destruct (tapTimer s) eqn:Ht.
    + rewrite (IH _ 0); cbn [tapCount tapTimer showAdmin]; [reflexivity | lia | reflexivity | lia].
    + rewrite (IH _ 0);
        [reflexivity | rewrite (Htimer eq_refl); lia | intros _; exact (Htimer eq_refl) | lia].
Qed.

(** X21. The admin panel opens only on seven taps in a row: over any taps and
    timeouts since the start in which every run of taps without a timeout in
    between is shorter than 7, [showAdmin] stays [false]. *)
Theorem secret_needs_seven_taps (evs : list SecretEvent) :
  longestTapRun 0 evs < SECRET_TAPS ->
  showAdmin (secretRun evs secretStart) = false.
Proof.
  intros Hrun.
  apply (secret_locked_from evs secretStart 0); [apply Nat.le_refl | reflexivity | exact Hrun].
Qed.

Lemma secret_needs_seven_taps_witness :
  showAdmin (secretRun [Tap; Tap; Tap; Tap; Tap; Tap; TimeoutFires; Tap; Tap; Tap]
                       secretStart) = false
  /\ showAdmin (secretRun [Tap; Tap; Tap; Tap; Tap; Tap; Tap] secretStart) = true.
Proof.
  split; [| reflexivity].
  apply secret_needs_seven_taps. unfold SECRET_TAPS. cbn. apply Nat.lt_succ_diag_r.
Defined.

(** ** The settings screen: the admin form and the e-mail field *)

(** X22. [addNewFeature] either refuses or adds one feature.  It refuses when
    the name or the description is blank: an alert is shown, the store and
    the form stay as they were.  Otherwise it resets the form and appends
    exactly the feature with id [uid()], the trimmed name, the trimmed
    description, [enabled = false], the current time, and as category the
    trimmed category field, or "Custom" when that field is blank.  Name,
    description and category are then not empty and neither begin nor end
    with white space. *)
Theorem addNewFeature_validates (e : Env) (form : AdminForm) (st : Store) :
  exists form1 alert st1,
    run (addNewFeature e form) st = inr ((form1, alert), st1)
    /\ ((alert = Some (mkAlert "Required" "Name and description are required.")
         /\ form1 = form /\ st1 = st
         /\ (JS.trim (newFeatureName form) = "" \/ JS.trim (newFeatureDesc form) = ""))
        \/ (alert = None /\ form1 = mkForm "" "" "Custom"
            /\ JS.trim (newFeatureName form) <> ""
            /\ JS.trim (newFeatureDesc form) <> ""
            /\ exists category,
                (JS.trim (newFeatureCat form) = "" -> category = "Custom")
                /\ (JS.trim (newFeatureCat form) <> "" ->
                    category = JS.trim (newFeatureCat form))
                /\ appendsFeature
                     (Feature.mk (uid e) (JS.trim (newFeatureName form))
                        (JS.trim (newFeatureDesc form)) false category (dateISO e))
                     st st1
                /\ Forall (fun t => t <> "" /\ startsWithWs t = false
                                    /\ endsWithWs t = false)
                     [JS.trim (newFeatureName form); JS.trim (newFeatureDesc form);
                      category])).
Proof.
  unfold addNewFeature.
  destruct (JS.trim (newFeatureName form)) as [| c1 n1] eqn:Hname.
  { do 3 eexists. split; [reflexivity |]. left. repeat split. left. reflexivity. }
  destruct (JS.trim (newFeatureDesc form)) as [| c2 d2] eqn:Hdesc.
  { do 3 eexists. split; [reflexivity |]. left. repeat split. right. reflexivity. }
  cbn [JS.truthy negb orb].
  do 3 eexists. split; [rewrite run_bind; reflexivity |]. right.
  split; [reflexivity |]. split; [reflexivity |].
  split; [discriminate |]. split; [discriminate |].
  destruct (JS.trim (newFeatureCat form)) as [| c3 k3] eqn:Hcat; cbn [JS.truthy].
  - exists "Custom". split; [reflexivity |]. split; [congruence |].
    split; [split; reflexivity |].
    repeat constructor; try discriminate.
    + rewrite <- Hname. apply trim_no_leading.
    + rewrite <- Hname. apply trim_no_trailing.
    + rewrite <- Hdesc. apply trim_no_leading.
    + rewrite <- Hdesc. apply trim_no_trailing.
  - exists (String c3 k3). split; [discriminate |]. split; [reflexivity |].
    split; [split; reflexivity |].
    repeat constructor; try discriminate.
    + rewrite <- Hname. apply trim_no_leading.
    + rewrite <- Hname. apply trim_no_trailing.
    + rewrite <- Hdesc. apply trim_no_leading.
    + rewrite <- Hdesc. apply trim_no_trailing.
    + rewrite <- Hcat. apply trim_no_leading.
    + rewrite <- Hcat. apply trim_no_trailing.
Qed.

Lemma addNewFeature_validates_witness :
  (exists st1,
     run (addNewFeature env0 (mkForm "  Radar " "Sweep" "   ")) (initialStore env0)
     = inr ((mkForm "" "" "Custom", None), st1)
     /\ appendsFeature (Feature.mk (uid env0) "Radar" "Sweep" false "Custom" (dateISO env0))
          (initialStore env0) st1)
  /\ (exists st2,
     run (addNewFeature env1 (mkForm "Sonar" " Ping " " Sea ")) (initialStore env0)
     = inr ((mkForm "" "" "Custom", None), st2)
     /\ appendsFeature (Feature.mk (uid env1) "Sonar" "Ping" false "Sea" (dateISO env1))
          (initialStore env0) st2)
  /\ run (addNewFeature env0 (mkForm "Radar" "  " "Sea")) (initialStore env0)
     = inr ((mkForm "Radar" "  " "Sea",
             Some (mkAlert "Required" "Name and description are required.")),
            initialStore env0).
Proof.
  split; [| split].
  - destruct (addNewFeature_validates env0 (mkForm "  Radar " "Sweep" "   ")
                (initialStore env0)) as (form1 & alert & st1 & Hrun & Hcases).
    destruct Hcases as [(_ & _ & _ & [Hbad | Hbad]) | Hadded];
      [discriminate Hbad | discriminate Hbad |].
    destruct Hadded as (-> & -> & _ & _ & category & Hblank & _ & Happ & _).
    rewrite (Hblank eq_refl) in Happ. exists st1. split; [exact Hrun | exact Happ].
  - destruct (addNewFeature_validates env1 (mkForm "Sonar" " Ping " " Sea ")
                (initialStore env0)) as (form1 & alert & st2 & Hrun & Hcases).
    destruct Hcases as [(_ & _ & _ & [Hbad | Hbad]) | Hadded];
      [discriminate Hbad | discriminate Hbad |].
    destruct Hadded as (-> & -> & _ & _ & category & _ & Hset & Happ & _).
    rewrite Hset in Happ by discriminate. exists st2. split; [exact Hrun | exact Happ].
  - destruct (addNewFeature_validates env0 (mkForm "Radar" "  " "Sea")
                (initialStore env0)) as (form1 & alert & st1 & Hrun & Hcases).
    destruct Hcases as [(-> & -> & -> & _) | (_ & _ & _ & Hdesc & _)];
      [exact Hrun | exfalso; apply Hdesc; reflexivity].
Defined.

(** X23. [saveEmail] stores the trimmed field as the e-mail address, so a
    [sync-email] command run next succeeds exactly when the field was not
    blank, and then queues one item. *)
Theorem saveEmail_then_sync (e : Env) (emailInput input verb : string)
    (args : list string) (st : Store) :
  JS.splitWs (JS.trim input) = verb :: args ->
  JS.toLowerCase verb = "sync-email" ->
  exists alert st1 r st2,
    run (saveEmail emailInput) st = inr (alert, st1)
    /\ emailAddress st1 = JS.trim emailInput
    /\ run (processCommand e input (features st1) (storeActions e st1)) st1
       = inr (r, st2)
    /\ (success r = true <-> JS.trim emailInput <> "")
    /\ length (emailQueue st2)
       = length (emailQueue st) + (if success r then 1 else 0).
Proof.
  intros Hparts Hverb. unfold saveEmail.
  destruct (JS.trim emailInput) as [| c t] eqn:Hmail.
  - do 4 eexists. split; [rewrite run_bind; reflexivity |].
    split; [reflexivity |]. dispatch Hparts Hverb.
    split; [reflexivity |]. cbn [success]. split; [| cbn; lia].
    split; [discriminate | congruence].
  - do 4 eexists. split; [rewrite run_bind; reflexivity |].
    split; [reflexivity |]. dispatch Hparts Hverb.
    split; [reflexivity |]. cbn [success emailQueue]. split.
    + split; [discriminate | reflexivity].
    + rewrite length_app. reflexivity.
Qed.

Lemma saveEmail_then_sync_witness :
  exists alert st1 r st2,
    run (saveEmail "  a@b.com ") (initialStore env0) = inr (alert, st1)
    /\ run (processCommand env0 "sync-email" (features st1) (storeActions env0 st1)) st1
       = inr (r, st2)
    /\ success r = true
    /\ length (emailQueue st2) = 1.
Proof.
  destruct (saveEmail_then_sync env0 "  a@b.com " "sync-email" "sync-email" []
              (initialStore env0) eq_refl eq_refl)
    as (alert & st1 & r & st2 & Hsave & _ & Hrun & Hiff & Hlen).
  assert (success r = true) as Hok by (apply Hiff; discriminate).
  exists alert, st1, r, st2.
  split; [exact Hsave |]. split; [exact Hrun |]. split; [exact Hok |].
  rewrite Hlen, Hok. reflexivity.
Defined.

(** ** Loading the store *)

Lemma loadCell_readable {A} (x : option string) (parse : string -> option A)
    (setCell : A -> Store -> Store) (get : Store -> A) (st : Store) :
  readable x parse ->
  setCell (get st) st = st ->
  loadCell x parse setCell st = Some (setCell (loadedOr x parse (get st)) st).
Proof.
  intros Hread Hsame. unfold loadCell, loadedOr.
  destruct x as [text |]; [| rewrite Hsame; reflexivity].
  destruct text as [| c t]; [cbn; rewrite Hsame; reflexivity |].
  cbn [JS.truthy]. destruct (parse (String c t)) eqn:Hparse; [reflexivity |].
  exfalso. apply (Hread (String c t) eq_refl); [discriminate | exact Hparse].
Qed.

Lemma loadCell_corrupt {A} (x : option string) (parse : string -> option A)
    (setCell : A -> Store -> Store) (st : Store) :
  corrupt x parse -> loadCell x parse setCell st = None.
Proof.
  intros (text & -> & Hne & Hparse). unfold loadCell.
  rewrite (truthy_nonempty _ Hne), Hparse. reflexivity.
Qed.

Lemma readable_address (x : option string) : readable x (fun em => Some em).
Proof. intros text _ _. discriminate. Qed.

Section LoadFacts.

Variable parseFeatures : string -> option (list Feature.t).
Variable parseGpsLogs : string -> option (list GPSLog.t).
Variable parsePhotoLogs : string -> option (list PhotoLog.t).
Variable parseCommandLogs : string -> option (list CommandLog.t).
Variable parseEmailQueue : string -> option (list EmailQueue.t).

Ltac load_cell get :=
  match goal with
  | |- context [loadCell ?x ?parse ?setCell ?st] =>
      rewrite (loadCell_readable x parse setCell get st) by
        (first [assumption | apply readable_address | apply Store_eta])
  end.

Ltac stop_cell :=
  match goal with
  | |- context [loadCell ?x ?parse ?setCell ?st] =>
      rewrite (loadCell_corrupt x parse setCell st) by assumption
  end.

(** X24. Loading, when every stored text can be parsed: each cell is loaded on
    its own.  A key that is missing or holds the empty text leaves its cell
    as it was, any other key replaces its cell by the parsed value, whatever
    the other keys hold; the connectivity flag is never loaded. *)
Theorem load_each_cell (x : Stored) (st : Store) :
  readable (storedFeatures x) parseFeatures ->
  readable (storedGpsLogs x) parseGpsLogs ->
  readable (storedPhotoLogs x) parsePhotoLogs ->
  readable (storedCommandLogs x) parseCommandLogs ->
  readable (storedEmailQueue x) parseEmailQueue ->
  load parseFeatures parseGpsLogs parsePhotoLogs parseCommandLogs parseEmailQueue
        (inr x) st
  = mkStore (loadedOr (storedFeatures x) parseFeatures (features st))
            (loadedOr (storedGpsLogs x) parseGpsLogs (gpsLogs st))
            (loadedOr (storedPhotoLogs x) parsePhotoLogs (photoLogs st))
            (loadedOr (storedCommandLogs x) parseCommandLogs (commandLogs st))
            (loadedOr (storedEmailQueue x) parseEmailQueue (emailQueue st))
            (loadedOr (storedEmailAddress x) (fun em => Some em) (emailAddress st))
            (isOnline st).
Proof.
  intros Hf Hg Hp Hc Hq. unfold load. cbn [tryAll].
  load_cell features. load_cell gpsLogs. load_cell photoLogs.
  load_cell commandLogs. load_cell emailQueue. load_cell emailAddress.
  reflexivity.
Qed.

(** X25. Loading, when something fails: the load stops there.  A rejected
    read loads nothing.  An unparsable text under a key leaves loaded exactly
    the cells of the keys before it, in the order [features], [gpsLogs],
    [photoLogs], [commandLogs], [emailQueue]; the cell of that key and of
    every later key, the e-mail address included, keeps what it held, even
    where the stored text is fine. *)
Theorem load_stops_at_failure (x : Stored) (st : Store) :
  (forall err,
      load parseFeatures parseGpsLogs parsePhotoLogs parseCommandLogs parseEmailQueue
        (inl err) st = st)
  /\ (corrupt (storedFeatures x) parseFeatures ->
      load parseFeatures parseGpsLogs parsePhotoLogs parseCommandLogs parseEmailQueue
        (inr x) st = st)
  /\ (readable (storedFeatures x) parseFeatures ->
      corrupt (storedGpsLogs x) parseGpsLogs ->
      load parseFeatures parseGpsLogs parsePhotoLogs parseCommandLogs parseEmailQueue
        (inr x) st
      = mkStore (loadedOr (storedFeatures x) parseFeatures (features st))
                (gpsLogs st) (photoLogs st) (commandLogs st) (emailQueue st)
                (emailAddress st) (isOnline st))
  /\ (readable (storedFeatures x) parseFeatures ->
      readable (storedGpsLogs x) parseGpsLogs ->
      corrupt (storedPhotoLogs x) parsePhotoLogs ->
      load parseFeatures parseGpsLogs parsePhotoLogs parseCommandLogs parseEmailQueue
        (inr x) st
      = mkStore (loadedOr (storedFeatures x) parseFeatures (features st))
                (loadedOr (storedGpsLogs x) parseGpsLogs (gpsLogs st))
                (photoLogs st) (commandLogs st) (emailQueue st)
                (emailAddress st) (isOnline st))
  /\ (readable (storedFeatures x) parseFeatures ->
      readable (storedGpsLogs x) parseGpsLogs ->
      readable (storedPhotoLogs x) parsePhotoLogs ->
      corrupt (storedCommandLogs x) parseCommandLogs ->
      load parseFeatures parseGpsLogs parsePhotoLogs parseCommandLogs parseEmailQueue
        (inr x) st
      = mkStore (loadedOr (storedFeatures x) parseFeatures (features st))
                (loadedOr (storedGpsLogs x) parseGpsLogs (gpsLogs st))
                (loadedOr (storedPhotoLogs x) parsePhotoLogs (photoLogs st))
                (commandLogs st) (emailQueue st)
                (emailAddress st) (isOnline st))
  /\ (readable (storedFeatures x) parseFeatures ->
      readable (storedGpsLogs x) parseGpsLogs ->
      readable (storedPhotoLogs x) parsePhotoLogs ->
      readable (storedCommandLogs x) parseCommandLogs ->
      corrupt (storedEmailQueue x) parseEmailQueue ->
      load parseFeatures parseGpsLogs parsePhotoLogs parseCommandLogs parseEmailQueue
        (inr x) st
      = mkStore (loadedOr (storedFeatures x) parseFeatures (features st))
                (loadedOr (storedGpsLogs x) parseGpsLogs (gpsLogs st))
                (loadedOr (storedPhotoLogs x) parsePhotoLogs (photoLogs st))
                (loadedOr (storedCommandLogs x) parseCommandLogs (commandLogs st))
                (emailQueue st) (emailAddress st) (isOnline st)).
Proof.
  unfold load. cbn [tryAll].
  split; [reflexivity |]. split; [| split; [| split; [| split]]].
  - intros Hf. stop_cell. reflexivity.
  - intros Hf Hg. load_cell features. stop_cell. reflexivity.
  - intros Hf Hg Hp. load_cell features. load_cell gpsLogs. stop_cell. reflexivity.
  - intros Hf Hg Hp Hc. load_cell features. load_cell gpsLogs.
    load_cell photoLogs. stop_cell. reflexivity.
  - intros Hf Hg Hp Hc Hq. load_cell features. load_cell gpsLogs.
    load_cell photoLogs. load_cell commandLogs. stop_cell. reflexivity.
Qed.

End LoadFacts.

Ltac readable_here :=
  let text := fresh "text" in
  let H := fresh "H" in
  let Hne := fresh "Hne" in
  intros text H;
  first [ discriminate H
        | injection H as <-; intros Hne;
          first [exfalso; apply Hne; reflexivity | vm_compute; discriminate] ].

Lemma load_each_cell_witness :
  load parseEmptyArray parseEmptyArray parseEmptyArray parseEmptyArray parseEmptyArray
       (inr (mkStored (Some "[]") None (Some "") (Some "[]") None (Some "a@b.com")))
       storeAtCap
  = mkStore [] (gpsLogs storeAtCap) [] [] [] "a@b.com" true.
Proof.
  rewrite load_each_cell; [reflexivity | readable_here ..].
Defined.

Lemma load_stops_at_failure_witness :
  load parseEmptyArray parseEmptyArray parseEmptyArray parseEmptyArray parseEmptyArray
       (inr (mkStored (Some "[]") (Some "{oops") (Some "[]") None None (Some "a@b.com")))
       (initialStore env0)
  = mkStore [] [] [] [] [] "" true
  /\ load parseEmptyArray parseEmptyArray parseEmptyArray parseEmptyArray parseEmptyArray
       (inr (mkStored None (Some "[]") None (Some "{oops") (Some "[]") (Some "a@b.com")))
       storeAtCap
     = mkStore [] [] [] [] [] "" true
  /\ load parseEmptyArray parseEmptyArray parseEmptyArray parseEmptyArray parseEmptyArray
       (inr (mkStored None None None (Some "[]") (Some "{oops") (Some "a@b.com")))
       storeAtCap
     = mkStore [] (gpsLogs storeAtCap) [] [] [] "" true.
Proof.
  split; [| split].
  - destruct (load_stops_at_failure parseEmptyArray parseEmptyArray parseEmptyArray
                parseEmptyArray parseEmptyArray
                (mkStored (Some "[]") (Some "{oops") (Some "[]") None None (Some "a@b.com"))
                (initialStore env0)) as (_ & _ & Hgps & _).
    rewrite Hgps; [reflexivity | readable_here |].
    exists "{oops". split; [reflexivity |]. split; [discriminate | reflexivity].
  - destruct (load_stops_at_failure parseEmptyArray parseEmptyArray parseEmptyArray
                parseEmptyArray parseEmptyArray
                (mkStored None (Some "[]") None (Some "{oops") (Some "[]") (Some "a@b.com"))
                storeAtCap) as (_ & _ & _ & _ & Hcmd & _).
    rewrite Hcmd; [reflexivity | readable_here | readable_here | readable_here |].
    exists "{oops". split; [reflexivity |]. split; [discriminate | reflexivity].
  - destruct (load_stops_at_failure parseEmptyArray parseEmptyArray parseEmptyArray
                parseEmptyArray parseEmptyArray
                (mkStored None None None (Some "[]") (Some "{oops") (Some "a@b.com"))
                storeAtCap) as (_ & _ & _ & _ & _ & Hqueue).
    rewrite Hqueue;
      [reflexivity | readable_here | readable_here | readable_here | readable_here |].
    exists "{oops". split; [reflexivity |]. split; [discriminate | reflexivity].
Defined.

(** ** The interpreter: what [enable] and [add] leave behind *)

Lemma find_map_stable {A} (p : A -> bool) (g : A -> A) (l : list A) :
  (forall x, p (g x) = p x) ->
  find p (map g l) = option_map g (find p l).
Proof.
  intros Hp. induction l as [| a l IH]; [reflexivity |].
  cbn [map find]. rewrite Hp. destruct (p a); [reflexivity | exact IH].
Qed.

Lemma matchesTarget_flipIf id a0 args x :
  matchesTarget a0 args (flipIf id x) = matchesTarget a0 args x.
Proof.
  unfold matchesTarget, flipIf. destruct (Feature.id x =? id)%string; reflexivity.
Qed.

(** X17. [enable] is idempotent: when an [enable] line has succeeded, the same
    line run again on the store it left finds the same feature, answers that
    it is already enabled, and changes nothing. *)
Theorem enable_idempotent (e e' : Env) (input verb a0 : string) (rest : list string)
    (st st1 : Store) (r : CommandResult) :
  JS.splitWs (JS.trim input) = verb :: a0 :: rest ->
  JS.toLowerCase verb = "enable" ->
  run (processCommand e input (features st) (storeActions e st)) st = inr (r, st1) ->
  success r = true ->
  exists f,
    find (matchesTarget a0 (a0 :: rest)) (features st) = Some f
    /\ run (processCommand e' input (features st1) (storeActions e' st1)) st1
       = inr (mkResult true (Feature.name f ++ " is already enabled."), st1).
Proof.
  intros Hparts Hverb Hrun Hok.
  rewrite (enable_call e _ _ _ _ (features st) _ Hparts Hverb) in Hrun.
  rewrite (enable_call e' _ _ _ _ (features st1) _ Hparts Hverb).
  destruct (find (matchesTarget a0 (a0 :: rest)) (features st)) as [f |] eqn:Hfind.
  - exists f. split; [reflexivity |].
    destruct (Feature.enabled f) eqn:Hen.
    + rewrite run_ok in Hrun.
      apply (f_equal (fun x => match x with inr (_, s) => s | inl _ => st end)) in Hrun.
      cbv beta iota in Hrun. subst st1. rewrite Hfind, Hen. reflexivity.
    + rewrite run_then_ok in Hrun. cbn [storeActions Actions.toggleFeature] in Hrun.
      unfold toggleFeature in Hrun. rewrite run_setFeatures in Hrun.
      apply (f_equal (fun x => match x with inr (_, s) => s | inl _ => st end)) in Hrun.
      cbv beta iota in Hrun. subst st1. cbn [features].
      change (map _ (features st)) with (map (flipIf (Feature.id f)) (features st)).
      rewrite (find_map_stable _ _ _ (matchesTarget_flipIf _ _ _)), Hfind.
      cbn [option_map]. rewrite (flipIf_same _ f eq_refl).
      cbn [Feature.withEnabled Feature.enabled Feature.name]. rewrite Hen. reflexivity.
  - rewrite run_failed in Hrun.
    apply (f_equal (fun x => match x with
                             | inr (res, _) => success res
                             | inl _ => true
                             end)) in Hrun.
    cbv beta iota in Hrun. cbn [success] in Hrun. congruence.
Qed.

Lemma enable_idempotent_witness :
  exists st1,
    run (processCommand env0 "enable battery monitor" (features (initialStore env0))
           (storeActions env0 (initialStore env0))) (initialStore env0)
    = inr (mkResult true "Enabled: Battery Monitor", st1)
    /\ run (processCommand env1 "enable battery monitor" (features st1)
              (storeActions env1 st1)) st1
       = inr (mkResult true "Battery Monitor is already enabled.", st1).
Proof.
  eexists. split; [reflexivity |].
  destruct (enable_idempotent env0 env1 "enable battery monitor" "enable" "battery"
              ["monitor"] (initialStore env0) _ _ eq_refl eq_refl eq_refl eq_refl)
    as (f & Hfind & Hagain).
  injection Hfind as <-. exact Hagain.
Defined.

Lemma contains_append c a b :
  contains c (a ++ b) = contains c a || contains c b.
Proof.
  induction a as [| x a IH]; [reflexivity |].
  cbn [String.append contains]. rewrite IH, orb_assoc. reflexivity.
Qed.

Lemma splitOnFrom_segments sep s :
  forall cur,
    contains sep cur = false ->
    Forall (fun t => contains sep t = false) (JS.splitOnFrom sep cur s).
Proof.
  induction s as [| c r IH]; intros cur Hcur.
  - constructor; [exact Hcur | constructor].
  - cbn [JS.splitOnFrom]. destruct (Ascii.eqb c sep) eqn:Hc.
    + constructor; [exact Hcur | apply IH; reflexivity].
    + apply IH. rewrite contains_append, Hcur. cbn. rewrite Hc. reflexivity.
Qed.

Lemma trimStart_contains c s :
  contains c s = false -> contains c (JS.trimStart s) = false.
Proof.
  induction s as [| a r IH]; [reflexivity |]. intros Hs.
  cbn [JS.trimStart]. destruct (JS.isWhiteSpace a); [| exact Hs].
  apply IH. cbn in Hs. apply orb_false_iff in Hs. apply Hs.
Qed.

Lemma trimEnd_contains c s :
  contains c s = false -> contains c (JS.trimEnd s) = false.
Proof.
  induction s as [| a r IH]; [reflexivity |]. intros Hs.
  cbn in Hs. apply orb_false_iff in Hs as [Ha Hr].
  cbn [JS.trimEnd]. specialize (IH Hr). destruct (JS.trimEnd r) as [| a' r'].
  - destruct (JS.isWhiteSpace a); [reflexivity |]. cbn. rewrite Ha. reflexivity.
  - cbn [contains] in IH |- *. rewrite Ha. exact IH.
Qed.

Lemma cleanField_trim sep_free :
  contains "|" sep_free = false -> cleanField (JS.trim sep_free).
Proof.
  intros Hs. unfold cleanField. split; [| split].
  - apply trimEnd_contains, trimStart_contains, Hs.
  - apply trim_no_leading.
  - apply trim_no_trailing.
Qed.

Lemma segments_clean full :
  Forall cleanField (map JS.trim (JS.splitOn "|" full)).
Proof.
  apply Forall_map. unfold JS.splitOn.
  eapply Forall_impl; [| apply (splitOnFrom_segments "|" full ""); reflexivity].
  intros t Ht. apply cleanField_trim, Ht.
Qed.

(** X18. A feature made by the [add] command: whenever an [add] line succeeds,
    the store differs by one feature added at the end, with the id [uid()],
    disabled, with a name and a description that are not empty; its name,
    description and category hold no [|] and neither begin nor end with
    white space. *)
Theorem add_command_feature_shape (e : Env) (input verb : string)
    (args : list string) (st st1 : Store) (r : CommandResult) :
  JS.splitWs (JS.trim input) = verb :: args ->
  JS.toLowerCase verb = "add" ->
  run (processCommand e input (features st) (storeActions e st)) st = inr (r, st1) ->
  success r = true ->
  exists f,
    appendsFeature f st st1
    /\ Feature.id f = uid e
    /\ Feature.enabled f = false
    /\ Feature.name f <> ""
    /\ Feature.description f <> ""
    /\ Forall cleanField [Feature.name f; Feature.description f; Feature.category f].
Proof.
  intros Hparts Hverb Hrun Hok. revert Hrun. dispatch Hparts Hverb.
  pose proof (segments_clean (JS.join " " args)) as Hclean.
  destruct (map JS.trim (JS.splitOn "|" (JS.join " " args)))
    as [| name [| desc more]] eqn:Hsplits;
    cbn [length Nat.ltb Nat.leb nth_error falsy text];
    try (rewrite run_failed; intros Hrun;
         apply (f_equal (fun x => match x with
                                  | inr (res, _) => success res
                                  | inl _ => true
                                  end)) in Hrun;
         cbv beta iota in Hrun; cbn [success] in Hrun; congruence).
  destruct (JS.truthy name) eqn:Hname, (JS.truthy desc) eqn:Hdesc; cbn [negb orb];
    try (rewrite run_failed; intros Hrun;
         apply (f_equal (fun x => match x with
                                  | inr (res, _) => success res
                                  | inl _ => true
                                  end)) in Hrun;
         cbv beta iota in Hrun; cbn [success] in Hrun; congruence).
  rewrite run_then_ok. cbn [storeActions Actions.addFeature].
  unfold addFeature. rewrite run_setFeatures. intros Hrun.
  apply (f_equal (fun x => match x with inr (_, s) => s | inl _ => st end)) in Hrun.
  cbv beta iota in Hrun. subst st1.
  eexists. split; [split; reflexivity |].
  cbn [Feature.id Feature.enabled Feature.name Feature.description Feature.category].
  split; [reflexivity |]. split; [reflexivity |].
  split; [destruct name; [discriminate Hname | discriminate] |].
  split; [destruct desc; [discriminate Hdesc | discriminate] |].
  inversion Hclean as [| ? ? Hn Hrest]; subst.
  inversion Hrest as [| ? ? Hd Hmore]; subst.
  constructor; [exact Hn |]. constructor; [exact Hd |]. constructor; [| constructor].
  destruct more as [| cat more']; cbn [nth_error].
  - repeat split.
  - inversion Hmore; assumption.
Qed.

Lemma add_command_feature_shape_witness :
  exists st1 f,
    run (processCommand env0 "add Radar | Sweep the sky |" (features (initialStore env0))
           (storeActions env0 (initialStore env0))) (initialStore env0)
    = inr (mkResult true "Feature added: Radar []", st1)
    /\ appendsFeature f (initialStore env0) st1
    /\ Feature.name f <> ""
    /\ Forall cleanField [Feature.name f; Feature.description f; Feature.category f].
Proof.
  eexists.
  destruct (add_command_feature_shape env0 "add Radar | Sweep the sky |" "add"
              ["Radar"; "|"; "Sweep"; "the"; "sky"; "|"] (initialStore env0) _ _
              eq_refl eq_refl eq_refl eq_refl)
    as (f & Happ & _ & _ & Hname & _ & Hclean).
  exists f. split; [reflexivity |]. split; [exact Happ |]. split; assumption.
Defined.

(** ** [uid]: the base-36 text *)

(** X2. The base-36 text of a number reads back as that number, so
    [toString(36)] sends different clock readings to different texts. *)
Theorem toString36_reads_back (n : N) :
  decode36 (JS.toString36 n) = n
  /\ forall m, JS.toString36 n = JS.toString36 m -> n = m.
Proof.
  split; [apply decode36_toString36 |].
  intros m Heq. rewrite <- (decode36_toString36 n), Heq. apply decode36_toString36.
Qed.

Lemma toString36_reads_back_witness :
  decode36 "loyw3v28" = 1700000000000%N
  /\ (JS.toString36 1700000000000 = "loyw3v28" -> 1700000000000%N = 1700000000000%N).
Proof.
  destruct (toString36_reads_back 1700000000000) as [Hback Hinj].
  split; [exact Hback |]. intros Heq. apply Hinj. reflexivity.
Defined.

(** * The claims on [enable], on the ids and on the category *)

(** ** C5: [enable] and [disable] *)

Lemma Forall2_flipIf id fs :
  Forall2 (fun x y =>
             if (Feature.id x =? id)%string
             then keepsAllButEnabled x y
                  /\ Feature.enabled y = negb (Feature.enabled x)
             else y = x)
          fs (map (flipIf id) fs).
Proof.
  induction fs as [| f fs IH]; [constructor |].
  cbn [map]. constructor; [| exact IH].
  unfold flipIf. destruct (Feature.id f =? id)%string; [| reflexivity].
  split; [repeat split | reflexivity].
Qed.

Lemma run_toggle_then_ok e id msg st :
  run (Actions.toggleFeature (storeActions e st) id ;; ok msg) st
  = inr (mkResult true msg,
         mkStore (map (flipIf id) (features st)) (gpsLogs st) (photoLogs st)
                 (commandLogs st) (emailQueue st) (emailAddress st) (isOnline st)).
Proof. reflexivity. Qed.

(** What the store looks like after the target [f], found by the predicate
    [p] of the command, had its id toggled. *)
Lemma toggled_target (p : Feature.t -> bool) (f : Feature.t) (st : Store) :
  (forall id x, p (flipIf id x) = p x) ->
  find p (features st) = Some f ->
  let st1 :=
    mkStore (map (flipIf (Feature.id f)) (features st)) (gpsLogs st) (photoLogs st)
            (commandLogs st) (emailQueue st) (emailAddress st) (isOnline st) in
  togglesOnly (Feature.id f) st st1
  /\ negatesFlagsAt (Feature.id f) st st1
  /\ exists g,
       find p (features st1) = Some g
       /\ keepsAllButEnabled f g
       /\ Feature.enabled g = negb (Feature.enabled f).
Proof.
  intros Hp Hfind st1. subst st1. split; [split; reflexivity |].
  split; [split; [apply Forall2_flipIf | reflexivity] |].
  exists (flipIf (Feature.id f) f). cbn [features].
  rewrite (find_map_stable p _ _ (Hp (Feature.id f))), Hfind.
  split; [reflexivity |]. rewrite (flipIf_same _ f eq_refl).
  split; [repeat split | reflexivity].
Qed.

(** C5. On a line whose verb is [enable] (or [disable]) followed by at least
    one token, the target is the first feature whose id is the first token or
    whose lower-cased name is the lower-cased text of all the tokens joined by
    single spaces.  With no such feature the command fails; with a target
    already in the requested state it succeeds with the "already" message; in
    both cases the outcome is the same under any closures and the store is
    untouched, so no action is called.  Otherwise the command succeeds and,
    with the operations of the store: the same lookup on the new store finds
    the target with [enabled] at the requested value, [true] after [enable]
    and [false] after [disable], and its other fields kept; position by
    position every feature with another id is the very same, every feature
    with the target's id has its flag negated and all else kept; no other
    cell of the store changes. *)
Theorem enable_disable_target (e : Env) (input verb a0 : string) (rest : list string)
    (st : Store) :
  JS.splitWs (JS.trim input) = verb :: a0 :: rest ->
  let lookup :=
    find (fun x =>
            (Feature.id x =? a0)%string
            || (JS.toLowerCase (Feature.name x)
                =? JS.toLowerCase (JS.join " " (a0 :: rest)))%string) in
  let call := processCommand e input (features st) in
  (JS.toLowerCase verb = "enable" ->
     match lookup (features st) with
     | None =>
         forall actions st',
           run (call actions) st'
           = inr (mkResult false ("Feature not found: " ++ a0), st')
     | Some f =>
         In f (features st)
         /\ if Feature.enabled f
            then forall actions st',
                run (call actions) st'
                = inr (mkResult true (Feature.name f ++ " is already enabled."), st')
            else exists st1,
                run (call (storeActions e st)) st
                = inr (mkResult true ("Enabled: " ++ Feature.name f), st1)
                /\ togglesOnly (Feature.id f) st st1
                /\ negatesFlagsAt (Feature.id f) st st1
                /\ exists g,
                     lookup (features st1) = Some g
                     /\ keepsAllButEnabled f g
                     /\ Feature.enabled g = true
     end)
  /\ (JS.toLowerCase verb = "disable" ->
     match lookup (features st) with
     | None =>
         forall actions st',
           run (call actions) st'
           = inr (mkResult false ("Feature not found: " ++ a0), st')
     | Some f =>
         In f (features st)
         /\ if Feature.enabled f
            then exists st1,
                run (call (storeActions e st)) st
                = inr (mkResult true ("Disabled: " ++ Feature.name f), st1)
                /\ togglesOnly (Feature.id f) st st1
                /\ negatesFlagsAt (Feature.id f) st st1
                /\ exists g,
                     lookup (features st1) = Some g
                     /\ keepsAllButEnabled f g
                     /\ Feature.enabled g = false
            else forall actions st',
                run (call actions) st'
                = inr (mkResult true (Feature.name f ++ " is already disabled."), st')
     end).
Proof.
  intros Hparts lookup call. subst call lookup. cbv beta.
  change (fun x : Feature.t =>
            (Feature.id x =? a0)%string
            || (JS.toLowerCase (Feature.name x)
                =? JS.toLowerCase (JS.join " " (a0 :: rest)))%string)
    with (matchesTarget a0 (a0 :: rest)).
  split; intros Hverb;
    destruct (find (matchesTarget a0 (a0 :: rest)) (features st)) as [f |] eqn:Hfind.
  - split; [exact (proj1 (find_some _ _ Hfind)) |].
    destruct (Feature.enabled f) eqn:Hen.
    + intros actions st'. rewrite (enable_call _ _ _ _ _ _ _ Hparts Hverb), Hfind, Hen.
      reflexivity.
    + rewrite (enable_call _ _ _ _ _ _ _ Hparts Hverb), Hfind, Hen.
      eexists. split; [apply run_toggle_then_ok |].
      destruct (toggled_target _ f st (fun id x => matchesTarget_flipIf id a0 _ x) Hfind)
        as (Htog & Hneg & g & Hg & Hkeep & Hflag).
      split; [exact Htog |]. split; [exact Hneg |].
      exists g. split; [exact Hg |]. split; [exact Hkeep |].
      rewrite Hflag, Hen. reflexivity.
  - intros actions st'. rewrite (enable_call _ _ _ _ _ _ _ Hparts Hverb), Hfind.
    reflexivity.
  - split; [exact (proj1 (find_some _ _ Hfind)) |].
    destruct (Feature.enabled f) eqn:Hen.
    + rewrite (disable_call _ _ _ _ _ _ _ Hparts Hverb), Hfind, Hen. cbn [negb].
      eexists. split; [apply run_toggle_then_ok |].
      destruct (toggled_target _ f st (fun id x => matchesTarget_flipIf id a0 _ x) Hfind)
        as (Htog & Hneg & g & Hg & Hkeep & Hflag).
      split; [exact Htog |]. split; [exact Hneg |].
      exists g. split; [exact Hg |]. split; [exact Hkeep |].
      rewrite Hflag, Hen. reflexivity.
    + intros actions st'. rewrite (disable_call _ _ _ _ _ _ _ Hparts Hverb), Hfind, Hen.
      reflexivity.
  - intros actions st'. rewrite (disable_call _ _ _ _ _ _ _ Hparts Hverb), Hfind.
    reflexivity.
Qed.

Lemma enable_disable_target_witness :
  (exists st1 g,
     run (processCommand env0 "Enable  auto gps LOG" (features (initialStore env0))
            (storeActions env0 (initialStore env0))) (initialStore env0)
     = inr (mkResult true "Enabled: Auto GPS Log", st1)
     /\ find (fun x => (Feature.id x =? "f006")%string) (features st1) = Some g
     /\ Feature.enabled g = true
     /\ negatesFlagsAt "f006" (initialStore env0) st1)
  /\ (exists st2 g,
     run (processCommand env0 "disable f001" (features (initialStore env0))
            (storeActions env0 (initialStore env0))) (initialStore env0)
     = inr (mkResult true "Disabled: GPS Tracking", st2)
     /\ find (fun x => (Feature.id x =? "f001")%string) (features st2) = Some g
     /\ Feature.enabled g = false).
Proof.
  split.
  - destruct (enable_disable_target env0 "Enable  auto gps LOG" "Enable" "auto"
                ["gps"; "LOG"] (initialStore env0) eq_refl) as [Henable _].
    specialize (Henable eq_refl).
    destruct Henable as (_ & st1 & Hrun & Htog & Hneg & g & Hg & Hkeep & Hflag).
    exists st1, g. split; [exact Hrun |].
    destruct Htog as [Hfs _]. rewrite Hfs in Hg |- *.
    split; [| split; [exact Hflag | exact Hneg]].
    vm_compute in Hg. injection Hg as <-. reflexivity.
  - destruct (enable_disable_target env0 "disable f001" "disable" "f001" []
                (initialStore env0) eq_refl) as [_ Hdisable].
    specialize (Hdisable eq_refl).
    destruct Hdisable as (_ & st2 & Hrun & Htog & _ & g & Hg & _ & Hflag).
    exists st2, g. split; [exact Hrun |].
    destruct Htog as [Hfs _]. rewrite Hfs in Hg |- *.
    split; [| exact Hflag].
    vm_compute in Hg. injection Hg as <-. reflexivity.
Defined.

(** ** C8: the ids of added features *)

Lemma uid_readings (e1 e2 : Env) :
  clockInRange e1 -> clockInRange e2 -> uid e1 = uid e2 -> readings e1 = readings e2.
Proof.
  unfold clockInRange, readings, uid. intros H1 H2 Heq.
  apply append_split_by_tail in Heq as [Hrand Htime].
  - rewrite Hrand. f_equal.
    rewrite <- (decode36_toString36 (dateNow e1)), Htime. apply decode36_toString36.
  - rewrite (length_toString36 7 (dateNow e1)), (length_toString36 7 (dateNow e2));
      [reflexivity | exact H2 | exact H1].
Qed.

Lemma uid_length (e : Env) : clockInRange e -> 8 <= String.length (uid e).
Proof.
  intros He. unfold uid. rewrite length_string_append, (length_toString36 7 _ He). lia.
Qed.

Lemma NoDup_map_through {A B C} (g : A -> B) (h : A -> C) (l : list A) :
  (forall x y, In x l -> In y l -> g x = g y -> h x = h y) ->
  NoDup (map h l) -> NoDup (map g l).
Proof.
  induction l as [| a l IH]; intros Hgh Hnd; [constructor |].
  cbn [map] in Hnd |- *. apply NoDup_cons_iff in Hnd as [Hnotin Hnd].
  constructor.
  - intros Hin. apply in_map_iff in Hin as (b & Hb & Hbl). apply Hnotin.
    rewrite <- (Hgh b a (or_intror Hbl) (or_introl eq_refl) Hb).
    apply in_map. exact Hbl.
  - apply IH; [| exact Hnd]. intros x y Hx Hy. apply Hgh; right; assumption.
Qed.

(** C8, amended. [addFeature] takes the id from [uid()] and compares it with
    nothing, so the ids are as distinct as the readings that [uid()] makes
    them of.  Run from a store whose ids are pairwise distinct and shorter
    than eight characters, as the seeded [f001] to [f010] are, any sequence
    of [addFeature] calls whose readings (the random text after "0.", the
    clock) are pairwise distinct, at clock readings from 36^7 to 36^8 - 1,
    returns normally and leaves a list whose ids are pairwise distinct: the
    old ids followed by the value of [uid()] at each call, in order. *)
Theorem addFeature_ids_distinct (calls : list AddCall) (st : Store) :
  Forall (fun c => clockInRange (callEnv c)) calls ->
  NoDup (map (fun c => readings (callEnv c)) calls) ->
  NoDup (ids (features st)) ->
  Forall (fun i => String.length i < 8) (ids (features st)) ->
  exists st1,
    run (addFeatureAll calls) st = inr (tt, st1)
    /\ ids (features st1)
       = (ids (features st) ++ map (fun c => uid (callEnv c)) calls)%list
    /\ NoDup (ids (features st1)).
Proof.
  intros Hrange Hread Hold Hshort.
  destruct (run_addFeatureAll_ids calls st) as (st1 & Hrun & Hids).
  exists st1. split; [exact Hrun |]. split; [exact Hids |].
  rewrite Hids. rewrite Forall_forall in Hrange, Hshort.
  apply NoDup_app.
  - exact Hold.
  - apply (NoDup_map_through _ (fun c => readings (callEnv c))); [| exact Hread].
    intros x y Hx Hy. apply uid_readings; apply Hrange; assumption.
  - intros i Hi Hin. apply in_map_iff in Hin as (c & <- & Hc).
    pose proof (uid_length _ (Hrange c Hc)). pose proof (Hshort _ Hi). lia.
Qed.

Lemma addFeature_ids_distinct_witness :
  exists st1,
    run (addFeatureAll [Build_AddCall env0 "Radar" "Sweep" "Custom";
                        Build_AddCall env1 "Sonar" "Ping" "Custom"])
        (initialStore env0) = inr (tt, st1)
    /\ NoDup (ids (features st1)).
Proof.
  destruct (addFeature_ids_distinct
              [Build_AddCall env0 "Radar" "Sweep" "Custom";
               Build_AddCall env1 "Sonar" "Ping" "Custom"] (initialStore env0))
    as (st1 & Hrun & _ & Hnodup).
  - repeat constructor; discriminate.
  - repeat (apply NoDup_cons; [not_in_list |]). apply NoDup_nil.
  - repeat (apply NoDup_cons; [not_in_list |]). apply NoDup_nil.
  - repeat constructor.
  - exists st1. split; [exact Hrun | exact Hnodup].
Defined.

(** ** C2: the category of an added feature *)

(** C2. The claim holds of the code but where the third segment is there and
    empty: on [add foo|bar|] the command succeeds and makes the feature with
    the empty category, where the claim has "Custom".  The default of the
    destructuring [cat = "Custom"] serves a missing segment only; the admin
    form, given the same three fields, stores "Custom". *)
Theorem add_empty_third_segment :
  map JS.trim (JS.splitOn "|" (JS.join " " ["foo|bar|"])) = ["foo"; "bar"; ""]
  /\ (exists st1,
        run (processCommand env0 "add foo|bar|" (features (initialStore env0))
               (storeActions env0 (initialStore env0))) (initialStore env0)
        = inr (mkResult true "Feature added: foo []", st1)
        /\ appendsFeature (Feature.mk (uid env0) "foo" "bar" false "" (dateISO env0))
             (initialStore env0) st1)
  /\ (exists st2,
        run (addNewFeature env0 (mkForm "foo" "bar" "")) (initialStore env0)
        = inr ((mkForm "" "" "Custom", None), st2)
        /\ appendsFeature (Feature.mk (uid env0) "foo" "bar" false "Custom" (dateISO env0))
             (initialStore env0) st2).
Proof.
  split; [reflexivity |]. split.
  - eexists. split; [reflexivity |]. split; reflexivity.
  - eexists. split; [reflexivity |]. split; reflexivity.
Qed.
